(** * mevzuat_kb: the knowledge base of the chatbot

    A shallow embedding of [src/mevzuat_kb.py]: the tokenizer, the chunker,
    the link extractor, the crawler/indexer over the SQLite store and the
    lexical search, followed by the properties the design document states
    about them.

    Python values are modelled as follows.
    - [str] is a sequence of Unicode code points, [list N].
    - [int] is unbounded, [Z]; slices follow Python's rules for negative
      and out-of-range bounds.
    - Library behaviour that the module does not define itself (Unicode case
      mapping, [urllib.parse], BeautifulSoup, float arithmetic) is taken
      through small interfaces (type classes); every general theorem holds
      for all their implementations.
    - The network, the clock and storage faults form a [world] record; the
      SQLite file is a [db] record threaded through the indexing loop. *)

From Stdlib Require Import String Ascii.
From Stdlib Require Import ZArith NArith List Bool Lia Sorted Permutation.
From stdpp Require Import gmap.
Import ListNotations.

(** ** Python strings *)

Module Py.

Abbreviation str := (list N).

(** [str.isspace] on one character; the regular-expression class [\s] of a
    [str] pattern is the same set. *)
Definition isspace (c : N) : bool :=
  ((9 <=? c) && (c <=? 13) || (28 <=? c) && (c <=? 32) ||
   (c =? 0x85) || (c =? 0xa0) || (c =? 0x1680) ||
   (0x2000 <=? c) && (c <=? 0x200a) ||
   (c =? 0x2028) || (c =? 0x2029) || (c =? 0x202f) || (c =? 0x205f) ||
   (c =? 0x3000))%N.

Definition SPACE : N := 32.
Definition NBSP : N := 0xa0.

(** [s.replace(a, b)] for one-character [a] and [b]. *)
Definition replace_char (a b : N) (s : str) : str :=
  map (fun c => if (c =? a)%N then b else c) s.

(** [re.sub(r"\s+", " ", s)]: every maximal run of whitespace becomes one
    space. [in_run] records that the previous character was whitespace. *)
Fixpoint sub_ws (in_run : bool) (s : str) : str :=
  match s with
  | [] => []
  | c :: r =>
      if isspace c
      then (if in_run then sub_ws true r else SPACE :: sub_ws true r)
      else c :: sub_ws false r
  end.

Fixpoint lstrip (s : str) : str :=
  match s with
  | [] => []
  | c :: r => if isspace c then lstrip r else s
  end.

Definition rstrip (s : str) : str := rev (lstrip (rev s)).

(** [s.strip()] *)
Definition strip (s : str) : str := rstrip (lstrip s).

(** The maximal runs of characters satisfying [p], left to right. [cur] is
    the run being read, most recent character first. This is both
    [re.findall] for a pattern [[class]+] and [str.split()] (runs of
    non-whitespace). *)
Definition flush (cur : str) : list str :=
  match cur with
  | [] => []
  | _ => [rev cur]
  end.

Fixpoint runs (p : N -> bool) (cur : str) (s : str) : list str :=
  match s with
  | [] => flush cur
  | c :: r => if p c then runs p (c :: cur) r else flush cur ++ runs p [] r
  end.

(** [s.split()] *)
Definition split (s : str) : list str := runs (fun c => negb (isspace c)) [] s.

(** [sep.join(l)] *)
Fixpoint join (sep : str) (l : list str) : str :=
  match l with
  | [] => []
  | [x] => x
  | x :: r => x ++ sep ++ join sep r
  end.

(** [s.split(sep)] for a one-character separator: never empty, keeps empty
    fields. *)
Fixpoint split_on (sep : N) (cur : str) (s : str) : list str :=
  match s with
  | [] => [rev cur]
  | c :: r => if (c =? sep)%N then rev cur :: split_on sep [] r
              else split_on sep (c :: cur) r
  end.

(** [l[start:stop]] with Python's treatment of negative and out-of-range
    bounds. *)
Definition clamp_index (n i : Z) : Z :=
  if (i <? 0)%Z then Z.max 0 (i + n) else Z.min i n.

Definition slice {A} (l : list A) (start stop : Z) : list A :=
  let n := Z.of_nat (length l) in
  let a := clamp_index n start in
  let b := clamp_index n stop in
  firstn (Z.to_nat (b - a)) (skipn (Z.to_nat a) l).

(** [s.endswith(suffix)] *)
Definition endswith (s suffix : str) : bool :=
  bool_decide (skipn (length s - length suffix) s = suffix).

(** [a < b] on strings: lexicographic on code points. *)
Fixpoint ltb (a b : str) : bool :=
  match a, b with
  | _, [] => false
  | [], _ :: _ => true
  | x :: a', y :: b' => (x <? y)%N || (x =? y)%N && ltb a' b'
  end.

(** An ASCII literal as a [str]. *)
Definition lit (s : string) : str :=
  map (fun a => N_of_ascii a) (list_ascii_of_string s).

(** Unicode case mapping, [str.lower]. It maps strings to strings (one
    character may lower to several). *)
Class Unicode := { lower : str -> str }.

End Py.

Import Py.

(** ** Tokenizer *)

(** The characters matched by [[a-z0-9]] compiled with [re.IGNORECASE] as a
    [str] pattern: the 62 ASCII letters and digits and the four characters
    whose case folding lands in a-z: U+0130, U+0131, U+017F and U+212A. *)
Definition token_re_class (c : N) : bool :=
  ((0x61 <=? c) && (c <=? 0x7a) || (0x30 <=? c) && (c <=? 0x39) ||
   (0x41 <=? c) && (c <=? 0x5a) ||
   (c =? 0x130) || (c =? 0x131) || (c =? 0x17f) || (c =? 0x212a))%N.

(** [_token_re.findall(s)] *)
Definition token_re_findall (s : str) : list str := runs token_re_class [] s.

Section Tokenizer.
Context `{Unicode}.

Definition normalize_text (s : str) : str :=
  let s := lower s in
  let s := replace_char NBSP SPACE s in
  strip (sub_ws false s).

Definition tokenize (s : str) : list str :=
  let s := normalize_text s in
  token_re_findall s.

End Tokenizer.

(** [str.lower] on the Basic Latin, Latin-1 Supplement and Latin Extended-A
    blocks and the Kelvin sign, as the Unicode character database gives it;
    characters of other blocks are left as they are. It serves the concrete
    examples; the general theorems do not depend on it. *)
Definition lower_char (c : N) : str :=
  (if (0x41 <=? c) && (c <=? 0x5a) then [c + 32]
   else if (0xc0 <=? c) && (c <=? 0xde) && negb (c =? 0xd7) then [c + 32]
   else if c =? 0x130 then [0x69; 0x307]
   else if c =? 0x178 then [0xff]
   else if c =? 0x212a then [0x6b]
   else if ((0x100 <=? c) && (c <=? 0x12f) || (0x132 <=? c) && (c <=? 0x137) ||
            (0x14a <=? c) && (c <=? 0x177)) && N.even c then [c + 1]
   else if ((0x139 <=? c) && (c <=? 0x148) || (0x179 <=? c) && (c <=? 0x17e))
           && N.odd c then [c + 1]
   else [c])%N.

Definition latin_lower (s : str) : str := flat_map lower_char s.

Definition latin_unicode : Unicode := {| lower := latin_lower |}.

(** ** Chunker *)

(** One evaluation of the [while] loop of [chunk_tokens] from the state
    [(i, out)]: [None] when the loop is left (the guard fails or [break]),
    otherwise the state after the body. *)
Definition chunk_body (tokens : list str) (chunk_size step : Z)
    (i : Z) (out : list str) : option (Z * list str) :=
  let n := Z.of_nat (length tokens) in
  if (i <? n)%Z then
    let chunk := slice tokens i (i + chunk_size) in
    match chunk with
    | [] => None
    | _ => Some ((i + step)%Z, out ++ [join [SPACE] chunk])
    end
  else None.

(** The loop, run for at most [fuel] iterations; [None] when the fuel is
    used up before the loop is left. *)
Fixpoint chunk_loop (fuel : nat) (tokens : list str) (chunk_size step : Z)
    (i : Z) (out : list str) : option (list str) :=
  match chunk_body tokens chunk_size step i out with
  | None => Some out
  | Some (i', out') =>
      match fuel with
      | O => None
      | S fuel' => chunk_loop fuel' tokens chunk_size step i' out'
      end
  end.

(** The big-step semantics of the same loop: a derivation exists exactly
    when the loop terminates, and it relates the entry state to the final
    value of [out]. *)
Inductive chunk_while (tokens : list str) (chunk_size step : Z) :
    Z -> list str -> list str -> Prop :=
| chunk_while_exit i out :
    chunk_body tokens chunk_size step i out = None ->
    chunk_while tokens chunk_size step i out out
| chunk_while_iter i out i' out' res :
    chunk_body tokens chunk_size step i out = Some (i', out') ->
    chunk_while tokens chunk_size step i' out' res ->
    chunk_while tokens chunk_size step i out res.

Definition chunk_step (chunk_size overlap : Z) : Z := Z.max 1 (chunk_size - overlap).

(** [chunk_tokens(tokens, chunk_size, overlap)]. The index grows by at least
    one per iteration, so [length tokens] iterations suffice
    ([chunk_loop_enough_fuel]); the fallback is never taken. *)
Definition chunk_tokens (tokens : list str) (chunk_size overlap : Z) : list str :=
  match chunk_loop (length tokens) tokens chunk_size
          (chunk_step chunk_size overlap) 0 [] with
  | Some out => out
  | None => []
  end.

Definition DEFAULT_CHUNK_SIZE : Z := 450.
Definition DEFAULT_OVERLAP : Z := 80.

(** ** Link extraction *)

(** The two fields of [urllib.parse.urlparse]'s result that the module
    reads. *)
Record ParseResult := { scheme : str; netloc : str }.

Class UrlLib := {
  urlparse : str -> ParseResult;
  urljoin : str -> str -> str
}.

(** [BeautifulSoup(html, "html.parser").select("a[href]")], each element
    given by the value of its [href] attribute, in document order. *)
Class HtmlParser := { select_a_href : str -> list str }.

(** The attributes set by [MevzuatKB.__init__]. *)
Record MevzuatKB := { seed_url : str; allowed_host : str }.

Definition MevzuatKB_init : MevzuatKB :=
  {| seed_url := lit "https://mevzuat.emu.edu.tr/content-en.htm";
     allowed_host := lit "mevzuat.emu.edu.tr" |}.

(** [sorted] on strings, by insertion. *)
Fixpoint insert_sorted (x : str) (l : list str) : list str :=
  match l with
  | [] => [x]
  | y :: r => if ltb y x then y :: insert_sorted x r else x :: y :: r
  end.

Definition sorted (l : list str) : list str := foldr insert_sorted [] l.

Definition is_empty {A} (l : list A) : bool :=
  match l with [] => true | _ => false end.

Section Links.
Context `{Unicode} `{UrlLib} `{HtmlParser}.
Variable self : MevzuatKB.

Definition is_allowed (url : str) : bool :=
  let p := urlparse url in
  (bool_decide (scheme p = lit "http") || bool_decide (scheme p = lit "https"))
  && bool_decide (netloc p = allowed_host self).

(** The body of the [for a in ...] loop of [_extract_links]: the link that
    the anchor adds to the set, [None] where the body reaches [continue] or
    the suffix test fails. *)
Definition anchor_link (page_url : str) (href_attr : str) : option str :=
  let href := strip href_attr in
  if is_empty href then None
  else
    let full := urljoin page_url href in
    if negb (is_allowed full) then None
    else
      let low := lower full in
      if endswith low (lit ".htm") || endswith low (lit ".html")
         || endswith low (lit ".pdf")
      then Some full
      else None.

Definition collect_links (page_url : str) (anchors : list str) : gset str :=
  foldl (fun links a =>
           match anchor_link page_url a with
           | Some full => links ∪ {[ full ]}
           | None => links
           end) ∅ anchors.

Definition extract_links (html : str) (page_url : str) : list str :=
  sorted (elements (collect_links page_url (select_a_href html))).

End Links.

(** ** The store *)

Record doc_row := {
  doc_title : str;
  doc_fetched_at : Z;
  doc_content : str
}.

Record chunk_row := {
  chunk_id : Z;
  chunk_url : str;
  chunk_title : str;
  chunk_text : str;
  chunk_norm : str
}.

(** The SQLite file: [docs] keyed by its primary key [url], [chunks] in
    rowid order, and the AUTOINCREMENT counter of [chunks]. *)
Record db := {
  docs : gmap str doc_row;
  chunks : list chunk_row;
  chunk_seq : Z
}.

Definition empty_db : db := {| docs := ∅; chunks := []; chunk_seq := 0 |}.

(** [SELECT fetched_at FROM docs WHERE url=?] *)
Definition select_fetched_at (d : db) (url : str) : option Z :=
  doc_fetched_at <$> docs d !! url.

(** [INSERT INTO docs ... ON CONFLICT(url) DO UPDATE SET ...] *)
Definition upsert_doc (url title : str) (fetched_at : Z) (content : str) (d : db) : db :=
  {| docs := <[ url := {| doc_title := title; doc_fetched_at := fetched_at;
                          doc_content := content |} ]> (docs d);
     chunks := chunks d;
     chunk_seq := chunk_seq d |}.

(** [DELETE FROM chunks WHERE url=?] *)
Definition delete_chunks (url : str) (d : db) : db :=
  {| docs := docs d;
     chunks := filter (fun r => chunk_url r ≠ url) (chunks d);
     chunk_seq := chunk_seq d |}.

(** [executemany("INSERT INTO chunks(url, title, chunk, chunk_norm) ...", rows)] *)
Fixpoint number_rows (seq : Z) (rows : list (str * str * str * str)) : list chunk_row :=
  match rows with
  | [] => []
  | (url, title, c, c_norm) :: rest =>
      {| chunk_id := seq + 1; chunk_url := url; chunk_title := title;
         chunk_text := c; chunk_norm := c_norm |} :: number_rows (seq + 1) rest
  end.

Definition insert_chunks (rows : list (str * str * str * str)) (d : db) : db :=
  {| docs := docs d;
     chunks := chunks d ++ number_rows (chunk_seq d) rows;
     chunk_seq := chunk_seq d + Z.of_nat (length rows) |}.

(** ** The world outside the process *)

Inductive write_op := UpsertDoc | DeleteChunks | InsertChunks.

Global Instance write_op_eq_dec : EqDecision write_op.
Proof. solve_decision. Defined.

(** - [now]: [int(time.time())];
    - [seed_response]: the body of the seed page, [None] when [requests.get]
      or [raise_for_status] raises;
    - [page_text]: the text [fetch_url_text] extracts for a URL before
      truncation, [None] when the request or the extraction raises;
    - [storage_fault]: the statement, if any, at which SQLite raises while
      the given URL is being written. *)
Record world := {
  now : Z;
  seed_response : option str;
  page_text : str -> option str;
  storage_fault : str -> option write_op
}.

Inductive event :=
| EvGetSeed
| EvFetch (url : str)
| EvWrite (op : write_op) (url : str).

Inductive exn :=
| HTTPError (url : str)
| StorageError (op : write_op) (url : str).

(** ** A state-and-exception monad for the indexing loop

    The state is the connection's view of the database (uncommitted writes
    included) and the trace of effects so far. *)

Definition istate : Type := db * list event.
Definition M (A : Type) : Type := istate -> (exn + A) * istate.

Definition ret {A} (a : A) : M A := fun s => (inr a, s).
Definition raise {A} (e : exn) : M A := fun s => (inl e, s).
Definition bind {A B} (m : M A) (k : A -> M B) : M B :=
  fun s => match m s with
           | (inl e, s') => (inl e, s')
           | (inr a, s') => k a s'
           end.
Definition get_db : M db := fun s => (inr (fst s), s).
Definition modify_db (f : db -> db) : M unit := fun s => (inr tt, (f (fst s), snd s)).
Definition emit (e : event) : M unit := fun s => (inr tt, (fst s, snd s ++ [e])).

Declare Scope kb_scope.
Delimit Scope kb_scope with kb.
Notation "'do' x <- m ; k" := (bind m (fun x => k))
  (at level 10, x name, m at level 100, k at level 200) : kb_scope.
Notation "m ;;; k" := (bind m (fun _ => k))
  (at level 100, k at level 200, right associativity) : kb_scope.
Local Open Scope kb_scope.

Fixpoint for_each {A} (body : A -> M unit) (l : list A) : M unit :=
  match l with
  | [] => ret tt
  | x :: r => body x ;;; for_each body r
  end.

(** ** Crawler / indexer *)

Definition MAX_CHARS : Z := 120000.

Section Indexer.
Context `{Unicode} `{UrlLib} `{HtmlParser}.
Variable self : MevzuatKB.
Variable w : world.

(** [fetch_url_text(url)]: the request and the extraction belong to the
    world; the function itself truncates to [max_chars]. [None] stands for
    any exception it raises. *)
Definition fetch_url_text (url : str) (max_chars : Z) : option str :=
  text ← page_text w url; Some (slice text 0 max_chars).

(** The [try: ... except Exception: ...] around the fetch: the call is
    recorded in the trace, and an exception becomes [None]. *)
Definition try_fetch (url : str) : M (option str) :=
  emit (EvFetch url) ;;; ret (fetch_url_text url MAX_CHARS).

(** One write statement for [url]: it raises where the world injects a
    storage fault, and otherwise changes the connection's view. *)
Definition sql_write (op : write_op) (url : str) (f : db -> db) : M unit :=
  if bool_decide (storage_fault w url = Some op)
  then raise (StorageError op url)
  else modify_db f ;;; emit (EvWrite op url).

(** [url.split("/")[-1]] *)
Definition url_title (url : str) : str := List.last (split_on 0x2f [] url) [].

Definition chunk_rows (url title text : str) : list (str * str * str * str) :=
  let toks := tokenize text in
  let chunks := chunk_tokens toks DEFAULT_CHUNK_SIZE DEFAULT_OVERLAP in
  map (fun c => (url, title, c, join [SPACE] (tokenize c))) chunks.

(** The body of [for url in discovered]. *)
Definition index_url (refresh_seconds : Z) (url : str) : M unit :=
  do d <- get_db;
  let row := select_fetched_at d url in
  if match row with
     | Some fetched_at => (now w - fetched_at <? refresh_seconds)%Z
     | None => false
     end
  then ret tt
  else
    do r <- try_fetch url;
    match r with
    | None => ret tt
    | Some text =>
        let title := url_title url in
        sql_write UpsertDoc url (upsert_doc url title (now w) text) ;;;
        sql_write DeleteChunks url (delete_chunks url) ;;;
        sql_write InsertChunks url (insert_chunks (chunk_rows url title text))
    end.

(** What [ensure_index] leaves behind: it returns after [con.commit()], or
    an exception leaves it before the commit, and the file keeps the
    contents it had when the connection was opened. In both cases [d] is
    the database as the next connection sees it. *)
Inductive outcome :=
| Returned (d : db) (tr : list event)
| Raised (e : exn) (d : db) (tr : list event).

Definition candidates (html : str) (max_pages : Z) : list str :=
  let discovered := seed_url self :: extract_links self html (seed_url self) in
  slice discovered 0 max_pages.

Definition ensure_index (d : db) (refresh_days max_pages : Z) : outcome :=
  let refresh_seconds := (refresh_days * 24 * 3600)%Z in
  match seed_response w with
  | None => Raised (HTTPError (seed_url self)) d [EvGetSeed]
  | Some html =>
      let discovered := candidates html max_pages in
      match for_each (index_url refresh_seconds) discovered (d, [EvGetSeed]) with
      | (inr _, (d', tr)) => Returned d' tr
      | (inl e, (_, tr)) => Raised e d tr
      end
  end.

End Indexer.

Definition outcome_db (o : outcome) : db :=
  match o with Returned d _ | Raised _ d _ => d end.

Definition outcome_trace (o : outcome) : list event :=
  match o with Returned _ tr | Raised _ _ tr => tr end.

(** The URLs handed to [fetch_url_text] in a trace. *)
Definition fetched_urls (tr : list event) : list str :=
  omap (fun e => match e with EvFetch u => Some u | _ => None end) tr.

(** The URLs written to in a trace. *)
Definition written_urls (tr : list event) : list str :=
  omap (fun e => match e with EvWrite _ u => Some u | _ => None end) tr.

(** ** Search *)

(** Python floats, as far as [search] uses them: [float(n)], [n ** 0.5],
    [*], [/], truth value and [<]. *)
Class FloatOps := {
  float : Type;
  float_of_nat : nat -> float;
  pow_half : nat -> float;
  fmul : float -> float -> float;
  fdiv : float -> float -> float;
  ftruthy : float -> bool;
  fltb : float -> float -> bool
}.

Section Search.
Context `{Unicode} `{FloatOps}.

Record Hit := {
  hit_url : str;
  hit_title : str;
  hit_chunk : str;
  hit_score : float
}.

(** The body of [for url, title, chunk, chunk_norm in rows]: the hit the
    row appends, [None] where the body reaches [continue]. *)
Definition row_hit (q_set : gset str) (r : chunk_row) : option Hit :=
  if is_empty (chunk_norm r) then None
  else
    let c_terms := split (chunk_norm r) in
    if is_empty c_terms then None
    else
      let c_set : gset str := list_to_set c_terms in
      let overlap := size (q_set ∩ c_set) in
      if (overlap <=? 0)%nat then None
      else
        let denom := fmul (pow_half (size q_set)) (pow_half (size c_set)) in
        let score := if ftruthy denom then fdiv (float_of_nat overlap) denom
                     else float_of_nat overlap in
        Some {| hit_url := chunk_url r; hit_title := chunk_title r;
                hit_chunk := chunk_text r; hit_score := score |}.

(** [hits.sort(key=lambda h: h.score, reverse=True)]: stable, descending. *)
Fixpoint insert_hit (h : Hit) (l : list Hit) : list Hit :=
  match l with
  | [] => [h]
  | x :: r => if fltb (hit_score h) (hit_score x) then x :: insert_hit h r
              else h :: x :: r
  end.

Definition sort_hits (l : list Hit) : list Hit := foldr insert_hit [] l.

Definition search_rows (rows : list chunk_row) (query : str) (k : Z) : list Hit :=
  let q_terms := tokenize query in
  if is_empty q_terms then []
  else
    let q_set : gset str := list_to_set q_terms in
    let hits := omap (row_hit q_set) rows in
    slice (sort_hits hits) 0 k.

Definition search (d : db) (query : str) (k : Z) : list Hit :=
  search_rows (chunks d) query k.

End Search.

(** * Properties *)

(** ** Runs, split and join *)

Lemma flush_rev_nonempty (t : str) : t ≠ [] -> flush (rev t) = [t].
Proof.
  intros Ht. destruct (rev t) as [|c r] eqn:E.
  - apply (f_equal (@rev N)) in E. rewrite rev_involutive in E. simpl in E. congruence.
  - change ([rev (c :: r)] = [t]). now rewrite <- E, rev_involutive.
Qed.

Lemma runs_app_run (p : N -> bool) (t s cur : str) :
  Forall (fun c => p c = true) t ->
  runs p cur (t ++ s) = runs p (rev t ++ cur) s.
Proof.
  intros Ht. revert cur. induction Ht as [|c t Hc _ IH]; intros cur; simpl.
  - reflexivity.
  - rewrite Hc, IH. now rewrite <- app_assoc.
Qed.

Lemma runs_stop (p : N -> bool) (c : N) (s cur : str) :
  p c = false -> runs p cur (c :: s) = flush cur ++ runs p [] s.
Proof. intros Hc. simpl. now rewrite Hc. Qed.

(** Every run is non-empty and made of characters of the class. *)
Definition is_run (p : N -> bool) (t : str) : Prop :=
  t ≠ [] /\ Forall (fun c => p c = true) t.

Lemma flush_is_run (p : N -> bool) (cur : str) :
  Forall (fun c => p c = true) cur -> Forall (is_run p) (flush cur).
Proof.
  intros Hcur. destruct cur as [|c r]; simpl; constructor; [|constructor].
  split.
  - intros E. apply (f_equal (@length N)) in E.
    rewrite length_app in E. simpl in E. lia.
  - apply Forall_app. split.
    + apply Forall_rev. now inversion Hcur.
    + constructor; [now inversion Hcur | constructor].
Qed.

Lemma runs_are_runs (p : N -> bool) (s cur : str) :
  Forall (fun c => p c = true) cur -> Forall (is_run p) (runs p cur s).
Proof.
  revert cur. induction s as [|c s IH]; intros cur Hcur; simpl.
  - now apply flush_is_run.
  - destruct (p c) eqn:Hc.
    + apply IH. now constructor.
    + apply Forall_app. split; [now apply flush_is_run | apply IH; constructor].
Qed.

(** Joining runs of non-separator characters with one separator character
    and reading the runs back gives the same list. *)
Lemma runs_join (p : N -> bool) (sep : N) (toks : list str) :
  p sep = false ->
  Forall (is_run p) toks ->
  runs p [] (join [sep] toks) = toks.
Proof.
  intros Hsep Htoks. induction Htoks as [|x r [Hne Hx] Hr IH].
  - reflexivity.
  - destruct r as [|y r'].
    + simpl. rewrite <- (app_nil_r x) at 1.
      rewrite runs_app_run by assumption. simpl. rewrite app_nil_r.
      now apply flush_rev_nonempty.
    + change (join [sep] (x :: y :: r')) with (x ++ sep :: join [sep] (y :: r')).
      rewrite runs_app_run by assumption.
      rewrite runs_stop by assumption. rewrite app_nil_r.
      rewrite flush_rev_nonempty by assumption. rewrite IH. reflexivity.
Qed.

Lemma token_char_not_space (c : N) : token_re_class c = true -> isspace c = false.
Proof.
  unfold token_re_class, isspace. intros Hc.
  repeat rewrite ?orb_true_iff, ?andb_true_iff, ?N.leb_le, ?N.eqb_eq in Hc.
  apply not_true_is_false. intros Hs.
  repeat rewrite ?orb_true_iff, ?andb_true_iff, ?N.leb_le, ?N.eqb_eq in Hs.
  lia.
Qed.

Lemma findall_tokens (s : str) : Forall (is_run token_re_class) (token_re_findall s).
Proof. apply runs_are_runs. constructor. Qed.

Lemma split_join_tokens (toks : list str) :
  Forall (is_run token_re_class) toks -> split (join [SPACE] toks) = toks.
Proof.
  intros Htoks. apply runs_join; [reflexivity|].
  eapply Forall_impl; [exact Htoks|].
  intros t [Hne Ht]. split; [assumption|].
  eapply Forall_impl; [exact Ht|].
  intros c Hc. simpl. now rewrite token_char_not_space.
Qed.

Section TokenizerFacts.
Context `{Unicode}.

Lemma tokenize_tokens (s : str) : Forall (is_run token_re_class) (tokenize s).
Proof. apply findall_tokens. Qed.

(** C8. For every chunk string c, splitting the stored normalized text
    " ".join(tokenize(c)) on whitespace gives back the token list
    tokenize(c); hence for every row that the indexer builds for a text, the
    terms that search reads from chunk_norm, and their set, are those that
    tokenize gives for the row's chunk. *)
Theorem split_normalized_chunk_is_tokenize :
  (forall c : str, split (join [SPACE] (tokenize c)) = tokenize c) /\
  (forall url title text : str,
     Forall (fun '(_, _, c, c_norm) =>
               split c_norm = tokenize c /\
               (list_to_set (split c_norm) : gset str) = list_to_set (tokenize c))
            (chunk_rows url title text)).
Proof.
  assert (Hsplit : forall c : str, split (join [SPACE] (tokenize c)) = tokenize c).
  { intros c. apply split_join_tokens, tokenize_tokens. }
  split; [exact Hsplit|].
  intros url title text. unfold chunk_rows.
  apply Forall_map. apply Forall_forall. intros c _. simpl.
  rewrite Hsplit. split; reflexivity.
Qed.

End TokenizerFacts.

(** ** Tokenizer on non-ASCII input *)

Definition ascii_lower_alnum (c : N) : bool :=
  ((0x61 <=? c) && (c <=? 0x7a) || (0x30 <=? c) && (c <=? 0x39))%N.

(** The Turkish word "ışık": U+0131 U+015F U+0131 U+006B. *)
Definition isik : str := [0x131; 0x15f; 0x131; 0x6b]%N.

(** C5. On the input "ışık", which lower-casing leaves unchanged, tokenize
    returns the two tokens "ı" and "ık": the dotless i (U+0131) is matched by
    [a-z] under re.IGNORECASE, so a returned token holds a character that is
    not a lowercase ASCII letter or digit, and an input without any ASCII
    letter or digit ("ı" alone) does not give the empty sequence. *)
Theorem tokenize_keeps_dotless_i `{Unicode} :
  lower isik = isik ->
  lower [0x131%N] = [0x131%N] ->
  tokenize isik = [[0x131]; [0x131; 0x6b]]%N /\
  Exists (Exists (fun c => ascii_lower_alnum c = false)) (tokenize isik) /\
  tokenize [0x131%N] = [[0x131%N]].
Proof.
  intros H1 H2. unfold tokenize, normalize_text. rewrite H1, H2.
  split; [reflexivity|]. split; [|reflexivity].
  apply Exists_cons_hd. apply Exists_cons_hd. reflexivity.
Qed.

Lemma tokenize_keeps_dotless_i_witness :
  tokenize (H := latin_unicode) isik = [[0x131]; [0x131; 0x6b]]%N /\
  Exists (Exists (fun c => ascii_lower_alnum c = false))
         (tokenize (H := latin_unicode) isik) /\
  tokenize (H := latin_unicode) [0x131%N] = [[0x131%N]].
Proof.
  apply (@tokenize_keeps_dotless_i latin_unicode); reflexivity.
Defined.

(** ** Chunker *)

Lemma chunk_body_Some tokens chunk_size step i out i' out' :
  chunk_body tokens chunk_size step i out = Some (i', out') ->
  (i < Z.of_nat (length tokens))%Z /\ i' = (i + step)%Z /\
  slice tokens i (i + chunk_size) ≠ [] /\
  out' = out ++ [join [SPACE] (slice tokens i (i + chunk_size))].
Proof.
  unfold chunk_body. destruct (Z.ltb_spec i (Z.of_nat (length tokens))); [|discriminate].
  destruct (slice tokens i (i + chunk_size)) eqn:E; [discriminate|].
  intros [= <- <-]. repeat split; auto; discriminate.
Qed.

(** With a step of at least one, [length tokens - i] iterations are enough
    from index [i], and the loop's derivation ends in the value computed. *)
Lemma chunk_loop_enough_fuel tokens chunk_size step :
  (1 <= step)%Z ->
  forall fuel i out,
    (Z.of_nat (length tokens) - i <= Z.of_nat fuel)%Z ->
    exists res,
      chunk_loop fuel tokens chunk_size step i out = Some res /\
      chunk_while tokens chunk_size step i out res.
Proof.
  intros Hstep fuel. induction fuel as [|fuel IH]; intros i out Hfuel.
  - exists out. simpl.
    destruct (chunk_body tokens chunk_size step i out) as [[i' out']|] eqn:E.
    + apply chunk_body_Some in E. lia.
    + split; [reflexivity | now apply chunk_while_exit].
  - simpl. destruct (chunk_body tokens chunk_size step i out) as [[i' out']|] eqn:E.
    + pose proof (chunk_body_Some _ _ _ _ _ _ _ E) as (Hi & -> & _ & _).
      destruct (IH (i + step)%Z out') as (res & Hres & Hw); [lia|].
      exists res. split; [assumption|]. eapply chunk_while_iter; eassumption.
    + exists out. split; [reflexivity | now apply chunk_while_exit].
Qed.

Lemma chunk_step_pos chunk_size overlap : (1 <= chunk_step chunk_size overlap)%Z.
Proof. unfold chunk_step. lia. Qed.

Lemma chunk_while_deterministic tokens chunk_size step i out res1 res2 :
  chunk_while tokens chunk_size step i out res1 ->
  chunk_while tokens chunk_size step i out res2 ->
  res1 = res2.
Proof.
  intros H1. revert res2. induction H1 as [i out E|i out i' out' res E _ IH]; intros res2 H2.
  - inversion H2; subst; [reflexivity | congruence].
  - inversion H2 as [? ? E2|? ? i2 out2 ? E2 H2']; subst; [congruence|].
    rewrite E in E2. injection E2 as <- <-. now apply IH.
Qed.

(** C9. chunk_tokens terminates for every token list and every
    chunk_size/overlap pair, misconfigured ones included: the step is
    max(1, chunk_size - overlap), at least 1, so the while loop has a
    finite run from i = 0, of at most len(tokens) iterations, and
    chunk_tokens is its result. *)
Theorem chunk_tokens_terminates (tokens : list str) (chunk_size overlap : Z) :
  (1 <= chunk_step chunk_size overlap)%Z /\
  chunk_loop (length tokens) tokens chunk_size (chunk_step chunk_size overlap) 0 []
    = Some (chunk_tokens tokens chunk_size overlap) /\
  chunk_while tokens chunk_size (chunk_step chunk_size overlap) 0 []
    (chunk_tokens tokens chunk_size overlap).
Proof.
  pose proof (chunk_step_pos chunk_size overlap) as Hstep.
  destruct (chunk_loop_enough_fuel tokens chunk_size _ Hstep (length tokens) 0%Z [])
    as (res & Hres & Hw); [lia|].
  unfold chunk_tokens. rewrite Hres. auto.
Qed.

(** *** The windows of [chunk_tokens] *)

Lemma slice_window {A} (l : list A) (i c : Z) :
  (0 <= i)%Z -> (0 <= c)%Z ->
  slice l i (i + c) = firstn (Z.to_nat c) (skipn (Z.to_nat i) l).
Proof.
  intros Hi Hc. unfold slice, clamp_index.
  set (n := Z.of_nat (length l)).
  destruct (Z.ltb_spec i 0); [lia|]. destruct (Z.ltb_spec (i + c) 0); [lia|].
  destruct (Z_le_gt_dec i n) as [Hin|Hin].
  - replace (Z.min i n) with i by lia.
    destruct (Z_le_gt_dec (i + c) n) as [Hc'|Hc'].
    + replace (Z.min (i + c) n) with (i + c)%Z by lia. f_equal. lia.
    + replace (Z.min (i + c) n) with n by lia.
      rewrite !firstn_all2; [reflexivity | |]; rewrite length_skipn; subst n; lia.
  - replace (Z.min i n) with n by lia. replace (Z.min (i + c) n) with n by lia.
    rewrite !skipn_all2 by (subst n; lia). now rewrite !firstn_nil.
Qed.

(** The k-th window: [tokens[k*step : k*step + chunk_size]]. *)
Definition window (tokens : list str) (chunk_size step : Z) (k : nat) : list str :=
  firstn (Z.to_nat chunk_size) (skipn (k * Z.to_nat step) tokens).

(** The number of windows that start inside a list of length [n]:
    the ceiling of [n / step]. *)
Definition window_count (n : nat) (step : Z) : nat :=
  Z.to_nat ((Z.of_nat n + step - 1) / step).

Lemma window_count_spec (n : nat) (step : Z) (k : nat) :
  (1 <= step)%Z ->
  (k < window_count n step)%nat <-> (Z.of_nat k * step < Z.of_nat n)%Z.
Proof.
  intros Hstep. unfold window_count.
  set (q := ((Z.of_nat n + step - 1) / step)%Z).
  assert (Hq : (step * q <= Z.of_nat n + step - 1 < step * (q + 1))%Z).
  { pose proof (Z.mul_div_le (Z.of_nat n + step - 1) step ltac:(lia)).
    pose proof (Z.mul_succ_div_gt (Z.of_nat n + step - 1) step ltac:(lia)).
    subst q. lia. }
  split; intros Hk.
  - assert (Z.of_nat k + 1 <= q)%Z by lia. nia.
  - assert (Z.of_nat k < q)%Z by nia. lia.
Qed.

Lemma chunk_body_window tokens chunk_size step (k : nat) out :
  (1 <= chunk_size)%Z -> (1 <= step)%Z ->
  chunk_body tokens chunk_size step (Z.of_nat k * step) out =
    if (k <? window_count (length tokens) step)%nat
    then Some ((Z.of_nat (S k) * step)%Z,
               out ++ [join [SPACE] (window tokens chunk_size step k)])
    else None.
Proof.
  intros Hcs Hstep. unfold chunk_body.
  pose proof (window_count_spec (length tokens) step k Hstep) as Hspec.
  destruct (Nat.ltb_spec k (window_count (length tokens) step)) as [Hk|Hk];
    destruct (Z.ltb_spec (Z.of_nat k * step) (Z.of_nat (length tokens))) as [Hi|Hi];
    try (exfalso; lia); [|reflexivity].
  rewrite slice_window by lia.
  replace (Z.to_nat (Z.of_nat k * step)) with (k * Z.to_nat step)%nat by nia.
  fold (window tokens chunk_size step k).
  destruct (window tokens chunk_size step k) eqn:E.
  - exfalso. apply (f_equal (@length str)) in E. unfold window in E.
    rewrite length_firstn, length_skipn in E. simpl in E. nia.
  - f_equal. f_equal. lia.
Qed.

Lemma chunk_loop_windows tokens chunk_size step :
  (1 <= chunk_size)%Z -> (1 <= step)%Z ->
  forall fuel k out,
    (window_count (length tokens) step - k <= fuel)%nat ->
    chunk_loop fuel tokens chunk_size step (Z.of_nat k * step) out =
      Some (out ++ map (fun j => join [SPACE] (window tokens chunk_size step j))
                       (seq k (window_count (length tokens) step - k))).
Proof.
  intros Hcs Hstep fuel. induction fuel as [|fuel IH]; intros k out Hfuel.
  - simpl. rewrite chunk_body_window by assumption.
    destruct (Nat.ltb_spec k (window_count (length tokens) step)); [lia|].
    replace (window_count (length tokens) step - k)%nat with 0%nat by lia.
    simpl. now rewrite app_nil_r.
  - simpl. rewrite chunk_body_window by assumption.
    destruct (Nat.ltb_spec k (window_count (length tokens) step)) as [Hk|Hk].
    + rewrite IH by lia.
      replace (window_count (length tokens) step - k)%nat
        with (S (window_count (length tokens) step - S k)) by lia.
      simpl. now rewrite <- app_assoc.
    + replace (window_count (length tokens) step - k)%nat with 0%nat by lia.
      simpl. now rewrite app_nil_r.
Qed.

Lemma window_count_le_length (n : nat) (step : Z) :
  (1 <= step)%Z -> (window_count n step <= n)%nat.
Proof.
  intros Hstep. destruct (Nat.le_gt_cases (window_count n step) n) as [|Hgt]; [assumption|].
  apply (window_count_spec n step n Hstep) in Hgt. nia.
Qed.

(** The closed form of [chunk_tokens] for a positive chunk size. *)
Lemma chunk_tokens_windows tokens chunk_size overlap :
  (1 <= chunk_size)%Z ->
  let step := chunk_step chunk_size overlap in
  chunk_tokens tokens chunk_size overlap =
    map (fun k => join [SPACE] (window tokens chunk_size step k))
        (seq 0 (window_count (length tokens) step)).
Proof.
  intros Hcs step. unfold chunk_tokens. fold step.
  pose proof (chunk_step_pos chunk_size overlap) as Hstep. fold step in Hstep.
  pose proof (chunk_loop_windows tokens chunk_size step Hcs Hstep
                (length tokens) 0 []) as Hloop.
  change (Z.of_nat 0 * step)%Z with 0%Z in Hloop. rewrite Hloop.
  - rewrite Nat.sub_0_r. reflexivity.
  - pose proof (window_count_le_length (length tokens) step Hstep). lia.
Qed.

(** C4 (as the code has it). For chunk_size > overlap >= 0 and
    step = chunk_size - overlap: the chunks are, in order, the windows
    tokens[k*step : k*step + chunk_size] joined by single spaces, one for
    every k with k*step < len(T), so their number is the ceiling of
    len(T)/step and the final partial window is emitted whenever it is
    non-empty; an empty T gives no chunk; 0 < len(T) <= step gives exactly
    one chunk, T joined by single spaces; and 0 < len(T) <= chunk_size makes
    the first chunk equal to T joined by single spaces. *)
Theorem chunk_tokens_are_windows (T : list str) (chunk_size overlap : Z) :
  (chunk_size > overlap)%Z -> (overlap >= 0)%Z ->
  let step := (chunk_size - overlap)%Z in
  let chunk k := join [SPACE] (firstn (Z.to_nat chunk_size)
                                 (skipn (k * Z.to_nat step) T)) in
  chunk_tokens T chunk_size overlap
    = map chunk (seq 0 (window_count (length T) step)) /\
  (forall k : nat,
     (Z.of_nat k * step < Z.of_nat (length T))%Z ->
     nth_error (chunk_tokens T chunk_size overlap) k = Some (chunk k) /\
     firstn (Z.to_nat chunk_size) (skipn (k * Z.to_nat step) T) ≠ []) /\
  (T = [] -> chunk_tokens T chunk_size overlap = []) /\
  ((0 < Z.of_nat (length T) <= step)%Z ->
     chunk_tokens T chunk_size overlap = [join [SPACE] T]) /\
  ((0 < Z.of_nat (length T) <= chunk_size)%Z ->
     hd_error (chunk_tokens T chunk_size overlap) = Some (join [SPACE] T)).
Proof.
  intros Hgt Hov step chunk.
  assert (Hstep : chunk_step chunk_size overlap = step) by (unfold chunk_step; lia).
  assert (Hstep1 : (1 <= step)%Z) by (subst step; lia).
  assert (Hclosed : chunk_tokens T chunk_size overlap
                    = map chunk (seq 0 (window_count (length T) step))).
  { rewrite chunk_tokens_windows by lia. rewrite Hstep. reflexivity. }
  pose proof (window_count_spec (length T) step) as Hcount.
  split; [exact Hclosed|]. rewrite Hclosed. repeat split.
  - rewrite nth_error_map, nth_error_seq.
    apply (Hcount k Hstep1) in H. apply Nat.ltb_lt in H. now rewrite H.
  - intros E. apply (f_equal (@length str)) in E.
    rewrite length_firstn, length_skipn in E. simpl in E. nia.
  - intros ->. pose proof (window_count_le_length 0 step Hstep1) as Hz.
    change (length (@nil str)) with 0%nat.
    destruct (window_count 0 step); [reflexivity | lia].
  - intros [Hpos Hle].
    assert (window_count (length T) step = 1%nat) as ->.
    { pose proof (proj2 (Hcount 0%nat Hstep1)). pose proof (proj1 (Hcount 1%nat Hstep1)). lia. }
    simpl. unfold chunk. simpl. rewrite drop_0, firstn_all2 by (subst step; lia). reflexivity.
  - intros [Hpos Hle].
    destruct (window_count (length T) step) eqn:E.
    + pose proof (proj2 (Hcount 0%nat Hstep1)). lia.
    + simpl. unfold chunk. simpl. rewrite drop_0, firstn_all2 by lia. reflexivity.
Qed.

Lemma chunk_tokens_are_windows_witness :
  let T := map lit ["a"; "b"; "c"; "d"; "e"]%string in
  chunk_tokens T 3 1 = map lit ["a b c"; "c d e"; "e"]%string /\
  nth_error (chunk_tokens T 3 1) 2 = Some (lit "e").
Proof.
  intros T.
  destruct (chunk_tokens_are_windows T 3 1 ltac:(lia) ltac:(lia)) as (Hall & Hk & _).
  split.
  - rewrite Hall. reflexivity.
  - destruct (Hk 2%nat ltac:(simpl; lia)) as [Hnth _]. rewrite Hnth. reflexivity.
Defined.

(** C4, the claim as stated: a token list that is no longer than chunk_size
    but longer than the step gives more than one chunk. *)
Lemma chunk_tokens_short_list_two_chunks :
  let T := map lit ["a"; "b"; "c"]%string in
  (3 > 1)%Z /\ (1 >= 0)%Z /\ (0 < length T <= 3)%nat /\
  chunk_tokens T 3 1 = [lit "a b c"; lit "c"] /\
  chunk_tokens T 3 1 ≠ [join [SPACE] T].
Proof.
  cbv zeta. repeat split; try lia; try (simpl; lia).
  vm_compute. discriminate.
Qed.

(** ** Link extraction *)

(** *** The order on strings and [sorted] *)

Definition str_lt (a b : str) : Prop := ltb a b = true.

Lemma ltb_cons (x y : N) (a b : str) :
  ltb (x :: a) (y :: b) = true <-> (x < y)%N \/ (x = y /\ ltb a b = true).
Proof. simpl. rewrite orb_true_iff, andb_true_iff, N.ltb_lt, N.eqb_eq. reflexivity. Qed.

Lemma ltb_irrefl (a : str) : ltb a a = false.
Proof.
  induction a as [|x a IH]; [reflexivity|].
  apply not_true_is_false. rewrite ltb_cons. intros [Hlt|[_ Hlt]]; [lia | congruence].
Qed.

Lemma ltb_trans (a b c : str) : str_lt a b -> str_lt b c -> str_lt a c.
Proof.
  unfold str_lt. revert b c. induction a as [|x a IH]; intros [|y b] [|z c]; try discriminate.
  - reflexivity.
  - rewrite !ltb_cons. intros [H1|[-> H1]] [H2|[-> H2]]; try (left; lia).
    right. split; [reflexivity | eauto].
Qed.

Lemma ltb_total (a b : str) : ltb a b = false -> a ≠ b -> ltb b a = true.
Proof.
  revert b. induction a as [|x a IH]; intros [|y b] Hab Hne;
    try congruence; try reflexivity; try (simpl in Hab; discriminate).
  apply ltb_cons. apply not_true_iff_false in Hab. rewrite ltb_cons in Hab.
  destruct (N.lt_trichotomy x y) as [Hlt|[->|Hgt]].
  - exfalso. auto.
  - right. split; [reflexivity|]. apply IH.
    + apply not_true_is_false. intros Hlt. apply Hab. auto.
    + congruence.
  - left. assumption.
Qed.

Global Instance str_lt_trans : Transitive str_lt.
Proof. intros a b c. apply ltb_trans. Qed.

Lemma insert_sorted_perm (x : str) (l : list str) :
  Permutation (insert_sorted x l) (x :: l).
Proof.
  induction l as [|y r IH]; simpl; [reflexivity|].
  destruct (ltb y x); [|reflexivity].
  rewrite IH. apply perm_swap.
Qed.

Lemma sorted_perm (l : list str) : Permutation (sorted l) l.
Proof.
  induction l as [|x l IH]; simpl; [reflexivity|].
  rewrite insert_sorted_perm. now rewrite IH.
Qed.

Lemma insert_sorted_hd (a x : str) (l : list str) :
  str_lt a x -> HdRel str_lt a l -> HdRel str_lt a (insert_sorted x l).
Proof.
  intros Hax Hal. destruct l as [|y r]; simpl.
  - now constructor.
  - destruct (ltb y x); constructor; [now inversion Hal | assumption].
Qed.

Lemma insert_sorted_Sorted (x : str) (l : list str) :
  Sorted str_lt l -> ~ In x l -> Sorted str_lt (insert_sorted x l).
Proof.
  induction 1 as [|y r Hr IH Hhd]; intros Hx; simpl.
  - repeat constructor.
  - destruct (ltb y x) eqn:E.
    + constructor.
      * apply IH. intros Hin. apply Hx. now right.
      * now apply insert_sorted_hd.
    + constructor; [now constructor|]. constructor.
      apply ltb_total; [assumption|]. intros ->. apply Hx. now left.
Qed.

Lemma sorted_Sorted (l : list str) : List.NoDup l -> Sorted str_lt (sorted l).
Proof.
  induction 1 as [|x l Hx Hl IH]; simpl.
  - constructor.
  - apply insert_sorted_Sorted; [assumption|].
    intros Hin. apply Hx. eapply Permutation_in; [apply sorted_perm | exact Hin].
Qed.

(** *** What [_extract_links] keeps *)

Section LinkFacts.
Context `{Unicode} `{UrlLib} `{HtmlParser}.
Variable self : MevzuatKB.

(** A URL that passes the filter of [_extract_links]. *)
Definition link_ok (u : str) : Prop :=
  (scheme (urlparse u) = lit "http" \/ scheme (urlparse u) = lit "https") /\
  netloc (urlparse u) = allowed_host self /\
  (endswith (lower u) (lit ".htm") = true \/
   endswith (lower u) (lit ".html") = true \/
   endswith (lower u) (lit ".pdf") = true).

Lemma is_allowed_spec (u : str) :
  is_allowed self u = true <->
  (scheme (urlparse u) = lit "http" \/ scheme (urlparse u) = lit "https") /\
  netloc (urlparse u) = allowed_host self.
Proof.
  unfold is_allowed.
  rewrite andb_true_iff, orb_true_iff, !bool_decide_eq_true. reflexivity.
Qed.

Lemma anchor_link_ok (page_url a u : str) :
  anchor_link self page_url a = Some u -> link_ok u.
Proof.
  unfold anchor_link.
  destruct (is_empty (strip a)); [discriminate|].
  destruct (is_allowed self (urljoin page_url (strip a))) eqn:Ha; [|discriminate].
  simpl.
  destruct (endswith _ (lit ".htm") || endswith _ (lit ".html")
            || endswith _ (lit ".pdf")) eqn:Hs; [|discriminate].
  intros [= <-]. apply is_allowed_spec in Ha. destruct Ha as [Hscheme Hhost].
  repeat split; try assumption.
  rewrite !orb_true_iff in Hs. tauto.
Qed.

Lemma collect_links_from (page_url : str) (anchors : list str) (acc : gset str) (u : str) :
  u ∈ foldl (fun links a =>
               match anchor_link self page_url a with
               | Some full => links ∪ {[ full ]}
               | None => links
               end) acc anchors ->
  u ∈ acc \/ exists a, In a anchors /\ anchor_link self page_url a = Some u.
Proof.
  revert acc. induction anchors as [|a r IH]; intros acc Hu; simpl in Hu.
  - now left.
  - apply IH in Hu. destruct Hu as [Hu|(a' & Ha' & Hu)].
    + destruct (anchor_link self page_url a) as [full|] eqn:E.
      * apply elem_of_union in Hu. destruct Hu as [Hu|Hu]; [now left|].
        apply elem_of_singleton in Hu. subst. right. exists a. split; [now left | assumption].
      * now left.
    + right. exists a'. split; [now right | assumption].
Qed.

Lemma extract_links_In (html page_url u : str) :
  In u (extract_links self html page_url) ->
  exists a, In a (select_a_href html) /\ anchor_link self page_url a = Some u.
Proof.
  unfold extract_links. intros Hu.
  apply (Permutation_in _ (sorted_perm _)) in Hu.
  apply list_elem_of_In, elem_of_elements in Hu.
  apply collect_links_from in Hu. destruct Hu as [Hu|Hu]; [|assumption].
  now apply not_elem_of_empty in Hu.
Qed.

Lemma extract_links_ok (html page_url : str) :
  Forall link_ok (extract_links self html page_url).
Proof.
  apply List.Forall_forall. intros u Hu.
  apply extract_links_In in Hu. destruct Hu as (a & _ & Ha).
  eapply anchor_link_ok; eassumption.
Qed.

Lemma extract_links_sorted (html page_url : str) :
  StronglySorted str_lt (extract_links self html page_url) /\
  List.NoDup (extract_links self html page_url).
Proof.
  unfold extract_links.
  set (l := elements (collect_links self page_url (select_a_href html))).
  assert (Hnd : List.NoDup l).
  { apply NoDup_ListNoDup. subst l. apply NoDup_elements. }
  split.
  - apply Sorted_StronglySorted; [exact str_lt_trans | now apply sorted_Sorted].
  - eapply Permutation_NoDup; [symmetry; apply sorted_perm | exact Hnd].
Qed.

End LinkFacts.

(** ** The indexing loop *)

(** The freshness test of the loop at clock value [t]. *)
Definition fresh_at (t refresh_seconds : Z) (d : db) (url : str) : bool :=
  match select_fetched_at d url with
  | Some fetched_at => (t - fetched_at <? refresh_seconds)%Z
  | None => false
  end.

Section IndexerFacts.
Context `{Unicode} `{UrlLib} `{HtmlParser}.
Variable self : MevzuatKB.
Variable w : world.

(** The database after the three writes for [url]. *)
Definition reindexed (url text : str) (d : db) : db :=
  insert_chunks (chunk_rows url (url_title url) text)
    (delete_chunks url (upsert_doc url (url_title url) (now w) text d)).

Definition write_events (url : str) (ops : list write_op) : list event :=
  map (fun op => EvWrite op url) ops.

(** The four ways through the loop body. *)
Lemma index_url_fresh (R : Z) (url : str) (d : db) (tr : list event) :
  fresh_at (now w) R d url = true ->
  index_url w R url (d, tr) = (inr tt, (d, tr)).
Proof.
  unfold fresh_at, index_url, bind, get_db. simpl.
  destruct (select_fetched_at d url); [|discriminate]. now intros ->.
Qed.

Lemma index_url_fetch_failed (R : Z) (url : str) (d : db) (tr : list event) :
  fresh_at (now w) R d url = false ->
  page_text w url = None ->
  index_url w R url (d, tr) = (inr tt, (d, tr ++ [EvFetch url])).
Proof.
  unfold fresh_at. intros Hf Hp.
  unfold index_url, bind, get_db. simpl. rewrite Hf.
  unfold try_fetch, fetch_url_text, bind, emit, ret. simpl. now rewrite Hp.
Qed.

Lemma index_url_indexed (R : Z) (url text : str) (d : db) (tr : list event) :
  fresh_at (now w) R d url = false ->
  page_text w url = Some text ->
  storage_fault w url = None ->
  index_url w R url (d, tr) =
    (inr tt, (reindexed url (slice text 0 MAX_CHARS) d,
              tr ++ EvFetch url :: write_events url [UpsertDoc; DeleteChunks; InsertChunks])).
Proof.
  unfold fresh_at. intros Hf Hp Hs.
  unfold index_url, bind, get_db. simpl. rewrite Hf.
  unfold try_fetch, fetch_url_text, bind, emit, ret, sql_write, modify_db, reindexed.
  simpl. rewrite Hp, Hs. simpl. repeat (unfold bind, emit; simpl).
  now rewrite <- !app_assoc.
Qed.

(** The writes that precede [op] in the body. *)
Definition writes_before (op : write_op) : list write_op :=
  match op with
  | UpsertDoc => []
  | DeleteChunks => [UpsertDoc]
  | InsertChunks => [UpsertDoc; DeleteChunks]
  end.

Lemma index_url_fault (R : Z) (url text : str) (op : write_op) (d : db) (tr : list event) :
  fresh_at (now w) R d url = false ->
  page_text w url = Some text ->
  storage_fault w url = Some op ->
  exists d',
    index_url w R url (d, tr) =
      (inl (StorageError op url),
       (d', tr ++ EvFetch url :: write_events url (writes_before op))).
Proof.
  unfold fresh_at. intros Hf Hp Hs.
  unfold index_url, bind, get_db. simpl. rewrite Hf.
  unfold try_fetch, fetch_url_text, bind, emit, ret, sql_write, modify_db, raise.
  simpl. rewrite Hp, Hs. simpl.
  destruct op; simpl; repeat (unfold bind, emit; simpl);
    rewrite <- ?app_assoc; simpl; eexists; reflexivity.
Qed.

(** What one pass through the body can do, as a relation between the states
    before and after it. *)
Inductive url_pass (R : Z) (url : str) (d : db) :
    exn + unit -> db -> list event -> Prop :=
| pass_fresh :
    fresh_at (now w) R d url = true ->
    url_pass R url d (inr tt) d []
| pass_fetch_failed :
    fresh_at (now w) R d url = false ->
    page_text w url = None ->
    url_pass R url d (inr tt) d [EvFetch url]
| pass_indexed text :
    fresh_at (now w) R d url = false ->
    page_text w url = Some text ->
    storage_fault w url = None ->
    url_pass R url d (inr tt) (reindexed url (slice text 0 MAX_CHARS) d)
      (EvFetch url :: write_events url [UpsertDoc; DeleteChunks; InsertChunks])
| pass_fault text op d' :
    fresh_at (now w) R d url = false ->
    page_text w url = Some text ->
    storage_fault w url = Some op ->
    url_pass R url d (inl (StorageError op url)) d'
      (EvFetch url :: write_events url (writes_before op)).

Lemma index_url_pass (R : Z) (url : str) (d : db) (tr : list event) :
  exists r d' evs,
    index_url w R url (d, tr) = (r, (d', tr ++ evs)) /\ url_pass R url d r d' evs.
Proof.
  destruct (fresh_at (now w) R d url) eqn:Hf.
  - exists (inr tt), d, []. rewrite app_nil_r.
    split; [now apply index_url_fresh | now constructor].
  - destruct (page_text w url) as [text|] eqn:Hp.
    + destruct (storage_fault w url) as [op|] eqn:Hs.
      * destruct (index_url_fault R url text op d tr Hf Hp Hs) as [d' Hd'].
        eexists _, d', _. split; [exact Hd' | econstructor; eassumption].
      * eexists _, _, _. split; [now apply index_url_indexed with (text := text)|].
        now constructor.
    + eexists _, _, _. split; [now apply index_url_fetch_failed | now constructor].
Qed.

End IndexerFacts.

(** *** Frame facts about the three writes *)

(** Nothing stored for [v] differs between [d] and [d']. *)
Definition unchanged_at (v : str) (d d' : db) : Prop :=
  docs d' !! v = docs d !! v /\
  filter (fun r => chunk_url r = v) (chunks d') = filter (fun r => chunk_url r = v) (chunks d).

Lemma unchanged_at_refl (v : str) (d : db) : unchanged_at v d d.
Proof. split; reflexivity. Qed.

Lemma unchanged_at_trans (v : str) (d1 d2 d3 : db) :
  unchanged_at v d1 d2 -> unchanged_at v d2 d3 -> unchanged_at v d1 d3.
Proof. intros [H1 H2] [H3 H4]. split; congruence. Qed.

Lemma number_rows_url (u : str) (seq : Z) (rows : list (str * str * str * str)) :
  Forall (fun '(url, _, _, _) => url = u) rows ->
  Forall (fun r => chunk_url r = u) (number_rows seq rows).
Proof.
  intros Hrows. revert seq.
  induction Hrows as [|[[[url title] c] cn] rest Hrow _ IH]; intros seq; simpl.
  - constructor.
  - constructor; [exact Hrow | apply IH].
Qed.

Lemma filter_none {A} (P : A -> Prop) `{forall x, Decision (P x)} (l : list A) :
  Forall (fun x => ~ P x) l -> filter P l = [].
Proof.
  induction 1 as [|x l Hx _ IH]; [reflexivity|].
  now rewrite filter_cons_False.
Qed.

Section StoreFacts.
Context `{Unicode}.

Lemma chunk_rows_url (url title text : str) :
  Forall (fun '(u, _, _, _) => u = url) (chunk_rows url title text).
Proof. unfold chunk_rows. apply Forall_map. apply Forall_forall. now intros c _. Qed.

Lemma rewrite_unchanged (u v title text : str) (t : Z) (d : db) :
  v ≠ u ->
  unchanged_at v d
    (insert_chunks (chunk_rows u title text) (delete_chunks u (upsert_doc u title t text d))).
Proof.
  intros Hne. split; simpl.
  - now rewrite lookup_insert_ne.
  - rewrite filter_app, list_filter_filter.
    rewrite (filter_none (fun r => chunk_url r = v) (number_rows _ _)).
    + rewrite app_nil_r. apply list_filter_iff. intros r. split; [tauto|].
      intros ->. split; [reflexivity | assumption].
    + eapply Forall_impl; [apply number_rows_url, chunk_rows_url|].
      simpl. intros r ->. congruence.
Qed.

Lemma rewrite_keeps_docs (u v title text : str) (t : Z) (d : db) :
  is_Some (docs d !! v) ->
  is_Some (docs (insert_chunks (chunk_rows u title text)
                   (delete_chunks u (upsert_doc u title t text d))) !! v).
Proof.
  intros Hv. simpl. destruct (decide (u = v)) as [->|Hne].
  - rewrite lookup_insert_eq. eauto.
  - now rewrite lookup_insert_ne.
Qed.

End StoreFacts.

(** *** Runs of the loop *)

Lemma fetched_urls_app (a b : list event) :
  fetched_urls (a ++ b) = fetched_urls a ++ fetched_urls b.
Proof. apply omap_app. Qed.

Lemma written_urls_app (a b : list event) :
  written_urls (a ++ b) = written_urls a ++ written_urls b.
Proof. apply omap_app. Qed.

Lemma written_urls_write_events (u : str) (ops : list write_op) (v : str) :
  v ∈ written_urls (write_events u ops) -> v = u.
Proof.
  unfold written_urls, write_events. intros Hv.
  apply list_elem_of_omap in Hv. destruct Hv as (e & He & Hv).
  apply list_elem_of_In, in_map_iff in He. destruct He as (op & <- & _).
  now injection Hv as ->.
Qed.

Lemma fetched_urls_write_events (u : str) (ops : list write_op) :
  fetched_urls (write_events u ops) = [].
Proof. induction ops; [reflexivity | assumption]. Qed.

(** Case analysis on membership in a list given by its elements. *)
Ltac elem_cases H :=
  match type of H with
  | _ ∈ [] => exfalso; exact (not_elem_of_nil _ H)
  | _ ∈ _ :: _ =>
      let H' := fresh "Hmem" in
      apply elem_of_cons in H; destruct H as [H'|H']; [subst | elem_cases H']
  end.

Section LoopFacts.
Context `{Unicode} `{UrlLib} `{HtmlParser}.
Variable self : MevzuatKB.
Variable w : world.
Variable R : Z.

(** A run of [for url in discovered] from database [d]: the result, the
    connection's final view and the events added. *)
Inductive loop_run : list str -> db -> exn + unit -> db -> list event -> Prop :=
| run_done d :
    loop_run [] d (inr tt) d []
| run_next u rest d d1 evs1 res d2 evs2 :
    url_pass w R u d (inr tt) d1 evs1 ->
    loop_run rest d1 res d2 evs2 ->
    loop_run (u :: rest) d res d2 (evs1 ++ evs2)
| run_raise u rest d e d1 evs1 :
    url_pass w R u d (inl e) d1 evs1 ->
    loop_run (u :: rest) d (inl e) d1 evs1.

Lemma for_each_run (l : list str) (d : db) (tr : list event) :
  exists res d' evs,
    for_each (index_url w R) l (d, tr) = (res, (d', tr ++ evs)) /\
    loop_run l d res d' evs.
Proof.
  revert d tr. induction l as [|u rest IH]; intros d tr.
  - exists (inr tt), d, []. rewrite app_nil_r. split; [reflexivity | constructor].
  - destruct (index_url_pass w R u d tr) as (r & d1 & evs1 & Hstep & Hpass).
    simpl. unfold bind at 1. rewrite Hstep. destruct r as [e|[]].
    + exists (inl e), d1, evs1. split; [reflexivity | now apply run_raise].
    + destruct (IH d1 (tr ++ evs1)) as (res & d2 & evs2 & Hrest & Hrun).
      exists res, d2, (evs1 ++ evs2). rewrite app_assoc.
      split; [exact Hrest | eapply run_next; eassumption].
Qed.

Lemma url_pass_fetched (u : str) d r d' evs (v : str) :
  url_pass w R u d r d' evs -> v ∈ fetched_urls evs -> v = u.
Proof.
  intros Hpass Hin. inversion Hpass as [| |text|text op d0]; subst; simpl in Hin.
  1-3: now elem_cases Hin.
  destruct op; simpl in Hin; now elem_cases Hin.
Qed.

Lemma url_pass_written (u : str) d r d' evs (v : str) :
  url_pass w R u d r d' evs -> v ∈ written_urls evs ->
  v = u /\ is_Some (page_text w u) /\ u ∈ fetched_urls evs.
Proof.
  intros Hpass Hv. inversion Hpass; subst; simpl in Hv.
  - now apply not_elem_of_nil in Hv.
  - now apply not_elem_of_nil in Hv.
  - split; [|split; [eauto | simpl; left]].
    apply (written_urls_write_events u [UpsertDoc; DeleteChunks; InsertChunks]). exact Hv.
  - split; [|split; [eauto | simpl; left]].
    eapply written_urls_write_events. exact Hv.
Qed.

Lemma url_pass_frame (u : str) d d' evs (v : str) :
  url_pass w R u d (inr tt) d' evs -> v ∉ written_urls evs -> unchanged_at v d d'.
Proof.
  intros Hpass Hv. inversion Hpass; subst; try apply unchanged_at_refl.
  apply rewrite_unchanged. intros ->. apply Hv. simpl. left.
Qed.

Lemma url_pass_keeps_docs (u : str) d d' evs (v : str) :
  url_pass w R u d (inr tt) d' evs -> is_Some (docs d !! v) -> is_Some (docs d' !! v).
Proof.
  intros Hpass Hv. inversion Hpass; subst; try assumption.
  now apply rewrite_keeps_docs.
Qed.

End LoopFacts.

Section RunFacts.
Context `{Unicode} `{UrlLib} `{HtmlParser}.
Variable self : MevzuatKB.
Variable w : world.

Lemma loop_run_fetched R l d res d' evs (v : str) :
  loop_run w R l d res d' evs -> v ∈ fetched_urls evs -> v ∈ l.
Proof.
  induction 1 as [d|u rest d d1 evs1 res d2 evs2 Hpass _ IH|u rest d e d1 evs1 Hpass];
    intros Hv.
  - now apply not_elem_of_nil in Hv.
  - rewrite fetched_urls_app in Hv. apply elem_of_app in Hv. destruct Hv as [Hv|Hv].
    + apply (url_pass_fetched w R) with (v := v) in Hpass; [subst; left | assumption].
    + right. now apply IH.
  - apply (url_pass_fetched w R) with (v := v) in Hpass; [subst; left | assumption].
Qed.

Lemma loop_run_written R l d res d' evs (v : str) :
  loop_run w R l d res d' evs -> v ∈ written_urls evs ->
  v ∈ l /\ is_Some (page_text w v) /\ v ∈ fetched_urls evs.
Proof.
  induction 1 as [d|u rest d d1 evs1 res d2 evs2 Hpass _ IH|u rest d e d1 evs1 Hpass];
    intros Hv.
  - now apply not_elem_of_nil in Hv.
  - rewrite written_urls_app in Hv. rewrite fetched_urls_app.
    apply elem_of_app in Hv. destruct Hv as [Hv|Hv].
    + destruct (url_pass_written w R _ _ _ _ _ v Hpass Hv) as (-> & Hp & Hf).
      split; [left | split; [assumption | apply elem_of_app; now left]].
    + destruct (IH Hv) as (Hl & Hp & Hf).
      split; [now right | split; [assumption | apply elem_of_app; now right]].
  - destruct (url_pass_written w R _ _ _ _ _ v Hpass Hv) as (-> & Hp & Hf).
    split; [left | split; assumption].
Qed.

Lemma loop_run_frame R l d d' evs (v : str) :
  loop_run w R l d (inr tt) d' evs -> v ∉ written_urls evs -> unchanged_at v d d'.
Proof.
  intros Hrun. remember (inr tt) as res eqn:Hres.
  induction Hrun as [d|u rest d d1 evs1 res d2 evs2 Hpass _ IH|u rest d e d1 evs1 Hpass];
    intros Hv; try discriminate.
  - apply unchanged_at_refl.
  - rewrite written_urls_app in Hv.
    apply unchanged_at_trans with (d2 := d1).
    + eapply url_pass_frame; [exact Hpass|]. intros Hin. apply Hv, elem_of_app. now left.
    + apply IH; [assumption|]. intros Hin. apply Hv, elem_of_app. now right.
Qed.

Lemma loop_run_keeps_docs R l d d' evs (v : str) :
  loop_run w R l d (inr tt) d' evs -> is_Some (docs d !! v) -> is_Some (docs d' !! v).
Proof.
  intros Hrun. remember (inr tt) as res eqn:Hres.
  induction Hrun as [d|u rest d d1 evs1 res d2 evs2 Hpass _ IH|u rest d e d1 evs1 Hpass];
    intros Hv; try discriminate.
  - assumption.
  - apply IH; [assumption|]. eapply url_pass_keeps_docs; eassumption.
Qed.

(** The events of one pass that returns normally. *)
Definition url_block (b : list event) : Prop :=
  b = [] \/
  exists u, b = [EvFetch u] \/
            (is_Some (page_text w u) /\
             b = [EvFetch u; EvWrite UpsertDoc u; EvWrite DeleteChunks u;
                  EvWrite InsertChunks u]).

Lemma loop_run_blocks R l d d' evs :
  loop_run w R l d (inr tt) d' evs ->
  exists blocks, evs = concat blocks /\ Forall url_block blocks.
Proof.
  intros Hrun. remember (inr tt) as res eqn:Hres.
  induction Hrun as [d|u rest d d1 evs1 res d2 evs2 Hpass _ IH|u rest d e d1 evs1 Hpass];
    try discriminate.
  - exists []. split; [reflexivity | constructor].
  - destruct (IH Hres) as (blocks & -> & Hblocks).
    exists (evs1 :: blocks). split; [reflexivity|]. constructor; [|assumption].
    inversion Hpass; subst.
    + now left.
    + right. exists u. now left.
    + right. exists u. right. split; [eauto | reflexivity].
Qed.

(** [ensure_index] in terms of a run of its loop. *)
Lemma ensure_index_run (d : db) (refresh_days max_pages : Z) :
  match seed_response w with
  | None =>
      ensure_index self w d refresh_days max_pages
        = Raised (HTTPError (seed_url self)) d [EvGetSeed]
  | Some html =>
      exists res d' evs,
        loop_run w (refresh_days * 24 * 3600) (candidates self html max_pages) d res d' evs /\
        ensure_index self w d refresh_days max_pages =
          match res with
          | inr _ => Returned d' (EvGetSeed :: evs)
          | inl e => Raised e d (EvGetSeed :: evs)
          end
  end.
Proof.
  unfold ensure_index. destruct (seed_response w) as [html|]; [|reflexivity].
  destruct (for_each_run w (refresh_days * 24 * 3600) (candidates self html max_pages)
              d [EvGetSeed]) as (res & d' & evs & Hfor & Hrun).
  exists res, d', evs. split; [exact Hrun|].
  rewrite Hfor. destruct res; reflexivity.
Qed.

End RunFacts.

(** ** Stand-ins for the libraries and a small site

    The examples below run the model on a concrete site. The library
    interfaces are filled with stand-ins that cover the inputs used:
    absolute URLs of the shape scheme://netloc/path, and pages whose
    anchors are given as whitespace-separated hrefs. *)

Definition plain_urlparse (url : str) : ParseResult :=
  match split_on 0x2f [] url with
  | s :: [] :: host :: _ =>
      {| scheme := match rev s with
                   | c :: r => if (c =? 0x3a)%N then rev r else []
                   | [] => []
                   end;
         netloc := host |}
  | _ => {| scheme := []; netloc := [] |}
  end.

Definition plain_urllib : UrlLib :=
  {| urlparse := plain_urlparse; urljoin := fun _ href => href |}.

Definition href_list_parser : HtmlParser := {| select_a_href := split |}.

Definition url_a : str := lit "https://mevzuat.emu.edu.tr/a.htm".
Definition url_b : str := lit "https://mevzuat.emu.edu.tr/b.pdf".
Definition url_evil : str := lit "https://evil.example.com/page.htm".
Definition url_seed : str := seed_url MevzuatKB_init.

Definition site_seed_page : str :=
  lit "https://mevzuat.emu.edu.tr/b.pdf https://evil.example.com/page.htm https://mevzuat.emu.edu.tr/a.htm".

Definition site_pages (u : str) : option str :=
  if bool_decide (u = url_seed) then Some (lit "Regulations index")
  else if bool_decide (u = url_a) then Some (lit "Fee schedule for registration")
  else if bool_decide (u = url_b) then Some (lit "Graduation requirements")
  else if bool_decide (u = url_evil) then Some (lit "Not ours")
  else None.

(** The site with every page reachable and a healthy disk. *)
Definition site (t : Z) : world :=
  {| now := t; seed_response := Some site_seed_page;
     page_text := site_pages; storage_fault := fun _ => None |}.

(** The same site with [a.htm] answering with an error. *)
Definition site_a_down (t : Z) : world :=
  {| now := t; seed_response := Some site_seed_page;
     page_text := fun u => if bool_decide (u = url_a) then None else site_pages u;
     storage_fault := fun _ => None |}.

(** The same site with the disk failing at the upsert for [a.htm]. *)
Definition site_disk_fault (t : Z) : world :=
  {| now := t; seed_response := Some site_seed_page;
     page_text := site_pages;
     storage_fault := fun u => if bool_decide (u = url_a) then Some UpsertDoc else None |}.

Definition run (w : world) (d : db) (refresh_days max_pages : Z) : outcome :=
  ensure_index (H := latin_unicode) (H0 := plain_urllib) (H1 := href_list_parser)
    MevzuatKB_init w d refresh_days max_pages.

(** ** Claims about the crawler *)

Lemma slice_subseteq {A} (l : list A) (a b : Z) (x : A) : x ∈ slice l a b -> x ∈ l.
Proof.
  unfold slice. intros Hx. apply subseteq_take in Hx. now apply subseteq_drop in Hx.
Qed.

Section CrawlerClaims.
Context `{Unicode} `{UrlLib} `{HtmlParser}.
Variable self : MevzuatKB.
Variable w : world.

Lemma candidates_ok (html : str) (max_pages : Z) (u : str) :
  u ∈ candidates self html max_pages -> u = seed_url self \/ link_ok self u.
Proof.
  unfold candidates. intros Hu. apply slice_subseteq in Hu.
  apply elem_of_cons in Hu. destruct Hu as [Hu|Hu]; [now left|right].
  pose proof (extract_links_ok self html (seed_url self)) as Hok.
  rewrite List.Forall_forall in Hok. apply Hok. now apply list_elem_of_In.
Qed.

(** C6. Every URL in the list that _extract_links returns has scheme http or
    https, a netloc equal to the configured allowed host and a lower-cased
    form ending in .htm, .html or .pdf; the list is strictly ascending, so
    sorted and without duplicates. In a run of ensure_index every URL that
    is fetched or written is the seed or such a link; for any other URL (a
    link to another host, say) nothing is fetched and nothing stored
    changes. *)
Theorem extracted_links_stay_on_allowed_host
    (html page_url : str) (d : db) (refresh_days max_pages : Z) :
  let links := extract_links self html page_url in
  let o := ensure_index self w d refresh_days max_pages in
  let seed_or_link u := u = seed_url self \/ link_ok self u in
  Forall (link_ok self) links /\
  StronglySorted str_lt links /\ List.NoDup links /\
  Forall seed_or_link (fetched_urls (outcome_trace o)) /\
  Forall seed_or_link (written_urls (outcome_trace o)) /\
  (forall v, ~ seed_or_link v ->
     (v ∉ fetched_urls (outcome_trace o)) /\ unchanged_at v d (outcome_db o)).
Proof.
  intros links o seed_or_link.
  split; [apply extract_links_ok|].
  split; [apply extract_links_sorted|]. split; [apply extract_links_sorted|].
  assert (Hfetched : forall v, v ∈ fetched_urls (outcome_trace o) -> seed_or_link v).
  { subst o. pose proof (ensure_index_run self w d refresh_days max_pages) as Hrun.
    destruct (seed_response w) as [html'|].
    - destruct Hrun as (res & d' & evs & Hloop & ->). intros v Hv.
      apply (candidates_ok html' max_pages).
      apply (loop_run_fetched w _ _ _ _ _ _ v Hloop).
      destruct res; simpl in Hv; exact Hv.
    - rewrite Hrun. simpl. intros v Hv. now apply not_elem_of_nil in Hv. }
  assert (Hwritten : forall v, v ∈ written_urls (outcome_trace o) ->
                               v ∈ fetched_urls (outcome_trace o)).
  { subst o. pose proof (ensure_index_run self w d refresh_days max_pages) as Hrun.
    destruct (seed_response w) as [html'|].
    - destruct Hrun as (res & d' & evs & Hloop & ->). intros v Hv.
      assert (Hv' : v ∈ written_urls evs) by (destruct res; exact Hv).
      destruct (loop_run_written w _ _ _ _ _ _ v Hloop Hv') as (_ & _ & Hf).
      destruct res; exact Hf.
    - rewrite Hrun. simpl. intros v Hv. now apply not_elem_of_nil in Hv. }
  split; [apply Forall_forall; intros v Hv; now apply Hfetched|].
  split; [apply Forall_forall; intros v Hv; now apply Hfetched, Hwritten|].
  intros v Hv. split; [intros Hin; now apply Hv, Hfetched|].
  subst o. pose proof (ensure_index_run self w d refresh_days max_pages) as Hrun.
  destruct (seed_response w) as [html'|].
  - destruct Hrun as (res & d' & evs & Hloop & Heq).
    assert (Hnw : v ∉ written_urls evs).
    { intros Hin. apply Hv, Hfetched, Hwritten. rewrite Heq. destruct res; exact Hin. }
    rewrite Heq. destruct res as [e|[]]; simpl.
    + apply unchanged_at_refl.
    + eapply loop_run_frame; eassumption.
  - rewrite Hrun. apply unchanged_at_refl.
Qed.

(** C7. When fetching or extracting the text of a candidate URL raises, the
    loop body ends normally with the database as it was and no write
    recorded, and the loop goes on with the next candidate from that same
    database: the run over the URL and the rest is the run over the rest. *)
Theorem broken_page_is_skipped (R : Z) (u : str) (rest : list str)
    (d : db) (tr : list event) :
  fetch_url_text w u MAX_CHARS = None ->
  exists tr',
    index_url w R u (d, tr) = (inr tt, (d, tr')) /\
    written_urls tr' = written_urls tr /\
    for_each (index_url w R) (u :: rest) (d, tr)
      = for_each (index_url w R) rest (d, tr').
Proof.
  intros Hfetch.
  assert (Hp : page_text w u = None).
  { unfold fetch_url_text in Hfetch. now destruct (page_text w u). }
  destruct (fresh_at (now w) R d u) eqn:Hf.
  - exists tr. pose proof (index_url_fresh w R u d tr Hf) as Hi.
    split; [exact Hi|]. split; [reflexivity|].
    simpl. unfold bind at 1. now rewrite Hi.
  - exists (tr ++ [EvFetch u]). pose proof (index_url_fetch_failed w R u d tr Hf Hp) as Hi.
    split; [exact Hi|]. split.
    + rewrite written_urls_app. simpl. apply app_nil_r.
    + simpl. unfold bind at 1. now rewrite Hi.
Qed.

(** C10. ensure_index never deletes a Document row. A URL that is not
    successfully fetched in the run keeps its Document row and its chunk
    rows. A URL is written to only after its text was fetched in the same
    run, and in a run that returns the trace is a sequence of blocks, one
    per candidate: nothing, a failed fetch, or fetch, upsert, delete of the
    URL's chunks and insert of its new chunks, in that order. *)
Theorem documents_are_never_pruned (d : db) (refresh_days max_pages : Z) :
  let o := ensure_index self w d refresh_days max_pages in
  (forall v, is_Some (docs d !! v) -> is_Some (docs (outcome_db o) !! v)) /\
  (forall v, ~ (v ∈ fetched_urls (outcome_trace o) /\ is_Some (page_text w v)) ->
     unchanged_at v d (outcome_db o)) /\
  (forall v, v ∈ written_urls (outcome_trace o) ->
     v ∈ fetched_urls (outcome_trace o) /\ is_Some (page_text w v)) /\
  (forall d' tr, o = Returned d' tr ->
     exists blocks, tr = EvGetSeed :: concat blocks /\ Forall (url_block w) blocks).
Proof.
  intros o. subst o.
  pose proof (ensure_index_run self w d refresh_days max_pages) as Hrun.
  destruct (seed_response w) as [html|].
  - destruct Hrun as (res & d1 & evs & Hloop & ->).
    assert (Hwr : forall v, v ∈ written_urls evs ->
                            v ∈ fetched_urls evs /\ is_Some (page_text w v)).
    { intros v Hv. destruct (loop_run_written w _ _ _ _ _ _ v Hloop Hv) as (_ & Hp & Hf).
      now split. }
    destruct res as [e|[]]; simpl.
    + split; [tauto|]. split; [intros v _; apply unchanged_at_refl|].
      split; [exact Hwr | discriminate].
    + split; [intros v Hv; eapply loop_run_keeps_docs; eassumption|].
      split; [|split; [exact Hwr|]].
      * intros v Hv. eapply loop_run_frame; [exact Hloop|].
        intros Hin. apply Hv. now apply Hwr.
      * intros d' tr [= <- <-].
        destruct (loop_run_blocks w _ _ _ _ _ Hloop) as (blocks & -> & Hb).
        now exists blocks.
  - rewrite Hrun. simpl.
    split; [tauto|]. split; [intros v _; apply unchanged_at_refl|].
    split; [|discriminate].
    intros v Hv. now apply not_elem_of_nil in Hv.
Qed.

End CrawlerClaims.

Lemma broken_page_is_skipped_witness :
  fetch_url_text (site_a_down 1000) url_a MAX_CHARS = None /\
  exists tr',
    index_url (H := latin_unicode) (site_a_down 1000) 1209600 url_a (empty_db, [])
      = (inr tt, (empty_db, tr')) /\
    written_urls tr' = written_urls [] /\
    for_each (index_url (H := latin_unicode) (site_a_down 1000) 1209600)
      [url_a; url_b] (empty_db, [])
      = for_each (index_url (H := latin_unicode) (site_a_down 1000) 1209600)
          [url_b] (empty_db, tr').
Proof.
  split; [reflexivity|].
  apply (broken_page_is_skipped (H := latin_unicode) (site_a_down 1000)). reflexivity.
Defined.

(** ** Storage faults *)

Lemma fresh_at_docs (t R : Z) (d d' : db) (u : str) :
  docs d' !! u = docs d !! u -> fresh_at t R d' u = fresh_at t R d u.
Proof. unfold fresh_at, select_fetched_at. now intros ->. Qed.

Section StorageFaults.
Context `{Unicode} `{UrlLib} `{HtmlParser}.
Variable self : MevzuatKB.
Variable w : world.

Lemma for_each_app (R : Z) (l1 l2 : list str) (s : istate) :
  for_each (index_url w R) (l1 ++ l2) s =
    match for_each (index_url w R) l1 s with
    | (inl e, s') => (inl e, s')
    | (inr _, s') => for_each (index_url w R) l2 s'
    end.
Proof.
  revert s. induction l1 as [|u l1 IH]; intros s; simpl; [reflexivity|].
  unfold bind. destruct (index_url w R u s) as [[e|[]] s']; [reflexivity | apply IH].
Qed.

Lemma loop_run_no_fault (R : Z) l d res d' evs :
  Forall (fun v => storage_fault w v = None) l ->
  loop_run w R l d res d' evs -> res = inr tt.
Proof.
  intros Hl Hrun.
  induction Hrun as [d|u rest d d1 evs1 res d2 evs2 Hpass _ IH|u rest d e d1 evs1 Hpass].
  - reflexivity.
  - apply IH. now inversion Hl.
  - inversion Hl as [|? ? Hu _]; subst. inversion Hpass; subst. congruence.
Qed.

(** C1 (as the code has it). When the write for a candidate URL fails in
    the storage layer (the candidates before it being written without
    fault), the exception leaves ensure_index: no candidate after that URL
    is fetched or written, the commit is not reached, and the database keeps
    the contents it had before the run, so the writes made earlier in the
    run for other URLs are not kept either. *)
Theorem storage_fault_aborts_run
    (d : db) (refresh_days max_pages : Z) (html : str)
    (pre : list str) (u : str) (post : list str) (text : str) (op : write_op) :
  seed_response w = Some html ->
  candidates self html max_pages = pre ++ u :: post ->
  Forall (fun v => storage_fault w v = None) pre ->
  fresh_at (now w) (refresh_days * 24 * 3600) d u = false ->
  page_text w u = Some text ->
  storage_fault w u = Some op ->
  exists tr,
    ensure_index self w d refresh_days max_pages = Raised (StorageError op u) d tr /\
    (forall v, v ∈ fetched_urls tr -> v ∈ pre ++ [u]) /\
    (forall v, v ∈ written_urls tr -> v ∈ pre ++ [u]).
Proof.
  intros Hseed Hcands Hpre Hstale Hpage Hfault.
  set (R := (refresh_days * 24 * 3600)%Z) in *.
  destruct (for_each_run w R pre d [EvGetSeed]) as (res & d1 & evs & Hfor & Hrun).
  change ([EvGetSeed] ++ evs) with (EvGetSeed :: evs) in Hfor.
  pose proof (loop_run_no_fault R _ _ _ _ _ Hpre Hrun) as ->.
  assert (Hu : u ∉ written_urls evs).
  { intros Hin. destruct (loop_run_written w _ _ _ _ _ _ u Hrun Hin) as (Hin' & _ & _).
    apply list_elem_of_In in Hin'. rewrite List.Forall_forall in Hpre.
    apply Hpre in Hin'. congruence. }
  pose proof (loop_run_frame w _ _ _ _ _ u Hrun Hu) as [Hdocs _].
  assert (Hstale1 : fresh_at (now w) R d1 u = false).
  { now rewrite (fresh_at_docs _ _ d d1 u Hdocs). }
  destruct (index_url_fault w R u text op d1 (EvGetSeed :: evs) Hstale1 Hpage Hfault)
    as (d2 & Hstep).
  exists ((EvGetSeed :: evs) ++ EvFetch u :: write_events u (writes_before op)).
  split; [|split].
  - unfold ensure_index. rewrite Hseed. fold R. rewrite Hcands, for_each_app, Hfor.
    cbn [for_each]. unfold bind at 1. rewrite Hstep. reflexivity.
  - intros v Hv. rewrite !fetched_urls_app in Hv. simpl in Hv.
    rewrite fetched_urls_write_events in Hv. apply elem_of_app.
    apply elem_of_app in Hv. destruct Hv as [Hv|Hv].
    + left. eapply loop_run_fetched; eassumption.
    + right. exact Hv.
  - intros v Hv. rewrite !written_urls_app in Hv. simpl in Hv. apply elem_of_app.
    apply elem_of_app in Hv. destruct Hv as [Hv|Hv].
    + left. now destruct (loop_run_written w _ _ _ _ _ _ v Hrun Hv).
    + right. apply written_urls_write_events in Hv. subst. left.
Qed.

End StorageFaults.

Lemma storage_fault_aborts_run_witness :
  exists tr,
    run (site_disk_fault 1000) empty_db 14 600
      = Raised (StorageError UpsertDoc url_a) empty_db tr /\
    (forall v, v ∈ fetched_urls tr -> v ∈ [url_seed] ++ [url_a]) /\
    (forall v, v ∈ written_urls tr -> v ∈ [url_seed] ++ [url_a]).
Proof.
  apply (storage_fault_aborts_run (H := latin_unicode) (H0 := plain_urllib)
           (H1 := href_list_parser) MevzuatKB_init (site_disk_fault 1000)
           empty_db 14 600 site_seed_page [url_seed] url_a [url_b]
           (lit "Fee schedule for registration") UpsertDoc).
  - reflexivity.
  - vm_compute. reflexivity.
  - repeat constructor.
  - reflexivity.
  - reflexivity.
  - reflexivity.
Defined.

(** C1, the claim as stated: with the disk failing at the upsert for a.htm,
    b.pdf, which comes after it, is reachable and has no fault of its own,
    is neither fetched nor stored, and the seed page, written earlier in
    the same run, is not in the database afterwards. *)
Lemma storage_fault_stops_later_urls :
  let w := site_disk_fault 1000 in
  let o := run w empty_db 14 600 in
  storage_fault w url_b = None /\
  page_text w url_b = Some (lit "Graduation requirements") /\
  fetched_urls (outcome_trace o) = [url_seed; url_a] /\
  written_urls (outcome_trace o) = [url_seed; url_seed; url_seed] /\
  docs (outcome_db o) !! url_b = None /\
  docs (outcome_db o) !! url_seed = None.
Proof. vm_compute. repeat split; reflexivity. Qed.

(** ** Running the indexer twice *)

Section SecondRun.
Context `{Unicode} `{UrlLib} `{HtmlParser}.
Variable self : MevzuatKB.
Variables w1 w2 : world.
Variable R : Z.
Hypothesis Hclock : (now w1 <= now w2 < now w1 + R)%Z.

Lemma fresh_later_fresh_earlier (d : db) (u : str) :
  fresh_at (now w2) R d u = true -> fresh_at (now w1) R d u = true.
Proof.
  unfold fresh_at. destruct (select_fetched_at d u); [|discriminate].
  rewrite !Z.ltb_lt. lia.
Qed.

Lemma fresh_when_just_fetched (t : Z) (d : db) (u : str) :
  (now w1 <= t < now w1 + R)%Z ->
  select_fetched_at d u = Some (now w1) -> fresh_at t R d u = true.
Proof. unfold fresh_at. intros Ht ->. apply Z.ltb_lt. lia. Qed.

(** Relative to the database [d] the first run started from, a row of
    [docs] is either still the original one or was written in this run. *)
Definition original_or_written (d dx : db) : Prop :=
  forall v, docs dx !! v = docs d !! v \/ select_fetched_at dx v = Some (now w1).

(** What the second run needs of a candidate: its document in [d] is still
    fresh at the second run, or it is stale or missing at the first run and
    the first run can fetch it. *)
Definition settled (d : db) (u : str) : Prop :=
  fresh_at (now w2) R d u = true \/
  (fresh_at (now w1) R d u = false /\ is_Some (page_text w1 u)).

Lemma url_pass_fresh_later (d dx dy : db) (u : str) (evs : list event) :
  original_or_written d dx ->
  settled d u ->
  url_pass w1 R u dx (inr tt) dy evs ->
  original_or_written d dy /\ fresh_at (now w2) R dy u = true /\
  (forall v, fresh_at (now w2) R dx v = true -> fresh_at (now w2) R dy v = true).
Proof.
  intros Hinv Hset Hpass.
  assert (Hcase : fresh_at (now w1) R dx u = true -> fresh_at (now w2) R dx u = true).
  { intros Hf1. destruct (Hinv u) as [Hsame|Hnew].
    - destruct Hset as [Hf2|[Hstale _]].
      + now rewrite (fresh_at_docs _ _ d dx u Hsame).
      + rewrite (fresh_at_docs _ _ d dx u Hsame) in Hf1. congruence.
    - now apply fresh_when_just_fetched. }
  inversion Hpass as [Hf| Hf Hp | text Hf Hp Hs |]; subst.
  - split; [assumption|]. split; [now apply Hcase | auto].
  - exfalso. destruct (Hinv u) as [Hsame|Hnew].
    + rewrite (fresh_at_docs _ _ d dy u Hsame) in Hf.
      destruct Hset as [Hf2|[_ [text Hp']]]; [|congruence].
      apply fresh_later_fresh_earlier in Hf2. congruence.
    + rewrite (fresh_when_just_fetched (now w1) dy u) in Hf; [discriminate | lia | assumption].
  - assert (Hnew : forall dz text', select_fetched_at (reindexed w1 u text' dz) u = Some (now w1)).
    { intros dz text'. unfold select_fetched_at, reindexed. simpl.
      now rewrite lookup_insert_eq. }
    split; [|split].
    + intros v. destruct (decide (v = u)) as [->|Hne].
      * right. apply Hnew.
      * destruct (Hinv v) as [Hsame|Hwritten].
        -- left. rewrite <- Hsame. unfold reindexed. simpl. now rewrite lookup_insert_ne.
        -- right. unfold select_fetched_at, reindexed in *. simpl.
           now rewrite lookup_insert_ne.
    + apply fresh_when_just_fetched; [exact Hclock | apply Hnew].
    + intros v Hv. destruct (decide (v = u)) as [->|Hne].
      * apply fresh_when_just_fetched; [exact Hclock | apply Hnew].
      * rewrite <- Hv. apply fresh_at_docs. unfold reindexed. simpl.
        now rewrite lookup_insert_ne.
Qed.

Lemma loop_run_fresh_later (d : db) l dx dy evs :
  loop_run w1 R l dx (inr tt) dy evs ->
  original_or_written d dx ->
  Forall (settled d) l ->
  Forall (fun u => fresh_at (now w2) R dy u = true) l /\
  (forall v, fresh_at (now w2) R dx v = true -> fresh_at (now w2) R dy v = true).
Proof.
  intros Hrun. remember (inr tt) as res eqn:Hres.
  induction Hrun as [dx|u rest dx d1 evs1 res d2 evs2 Hpass _ IH|u rest dx e d1 evs1 Hpass];
    intros Hinv Hl; try discriminate.
  - split; [constructor | auto].
  - inversion Hl as [|? ? Hu Hrest]; subst.
    destruct (url_pass_fresh_later d dx d1 u evs1 Hinv Hu Hpass) as (Hinv1 & Hfu & Hmono1).
    destruct (IH eq_refl Hinv1 Hrest) as (Hall & Hmono2).
    split; [constructor; auto | auto].
Qed.

(** With every candidate fresh, the loop of the second run changes
    nothing. *)
Lemma for_each_all_fresh (l : list str) (d : db) (tr : list event) :
  Forall (fun u => fresh_at (now w2) R d u = true) l ->
  for_each (index_url w2 R) l (d, tr) = (inr tt, (d, tr)).
Proof.
  induction 1 as [|u rest Hu _ IH]; [reflexivity|].
  simpl. unfold bind at 1. now rewrite (index_url_fresh w2 R u d tr Hu).
Qed.

End SecondRun.

(** C2 (as the code has it). Take a run that returns. A second run follows
    before the refresh window has elapsed since the first, against the same
    seed page. If every candidate URL either had a Document that is still
    fresh at the second run, or was stale or missing and could be fetched in
    the first run, then the second run requests the seed page, skips every
    candidate, fetches no page and writes nothing: the store after it is the
    store after the first run. *)
Theorem second_run_is_noop `{Unicode} `{UrlLib} `{HtmlParser}
    (self : MevzuatKB) (w1 w2 : world) (d : db) (refresh_days max_pages : Z)
    (html : str) (d1 : db) (tr1 : list event) :
  seed_response w1 = Some html ->
  seed_response w2 = Some html ->
  (now w1 <= now w2 < now w1 + refresh_days * 24 * 3600)%Z ->
  Forall (settled w1 w2 (refresh_days * 24 * 3600) d) (candidates self html max_pages) ->
  ensure_index self w1 d refresh_days max_pages = Returned d1 tr1 ->
  ensure_index self w2 d1 refresh_days max_pages = Returned d1 [EvGetSeed] /\
  fetched_urls [EvGetSeed] = [] /\ written_urls [EvGetSeed] = [].
Proof.
  intros Hseed1 Hseed2 Hclock Hcands Hret.
  split; [|split; reflexivity].
  pose proof (ensure_index_run self w1 d refresh_days max_pages) as Hrun.
  rewrite Hseed1 in Hrun. destruct Hrun as (res & d' & evs & Hloop & Heq).
  rewrite Heq in Hret. destruct res as [e|[]]; [discriminate|].
  injection Hret as -> _.
  destruct (loop_run_fresh_later w1 w2 _ Hclock d _ _ _ _ Hloop) as [Hfresh _];
    [intros v; now left | exact Hcands |].
  unfold ensure_index. rewrite Hseed2.
  now rewrite (for_each_all_fresh w2 _ _ d1 [EvGetSeed] Hfresh).
Qed.

Lemma second_run_is_noop_witness :
  exists d1 tr1,
    run (site 1000) empty_db 14 600 = Returned d1 tr1 /\
    run (site 1005) d1 14 600 = Returned d1 [EvGetSeed].
Proof.
  destruct (run (site 1000) empty_db 14 600) as [d1 tr1|e d1 tr1] eqn:Hrun;
    [|vm_compute in Hrun; discriminate].
  exists d1, tr1. split; [reflexivity|].
  refine (proj1 (second_run_is_noop (H := latin_unicode) (H0 := plain_urllib)
                   (H1 := href_list_parser) MevzuatKB_init (site 1000) (site 1005)
                   empty_db 14 600 site_seed_page d1 tr1 eq_refl eq_refl _ _ Hrun)).
  - simpl. lia.
  - vm_compute.
    repeat (constructor; [right; split; [reflexivity | eexists; reflexivity]|]).
    constructor.
Defined.

(** C2, the claim as stated: a.htm answers with an error, the first run
    returns all the same, and the second run, in the same second and with
    the network unchanged, fetches a.htm again. *)
Lemma second_run_retries_failed_page :
  let w := site_a_down 1000 in
  let o1 := run w empty_db 14 600 in
  let o2 := run w (outcome_db o1) 14 600 in
  (exists tr, o1 = Returned (outcome_db o1) tr) /\
  fetched_urls (outcome_trace o2) = [url_a] /\
  fetched_urls (outcome_trace o2) ≠ [].
Proof.
  vm_compute. split; [eexists; reflexivity|]. split; [reflexivity | discriminate].
Qed.

(** ** Search *)

Section SearchFacts.
Context `{Unicode} `{FloatOps}.

Lemma insert_hit_perm (h : Hit) (l : list Hit) : Permutation (insert_hit h l) (h :: l).
Proof.
  induction l as [|x r IH]; simpl; [reflexivity|].
  destruct (fltb (hit_score h) (hit_score x)); [|reflexivity].
  rewrite IH. apply perm_swap.
Qed.

Lemma sort_hits_perm (l : list Hit) : Permutation (sort_hits l) l.
Proof.
  induction l as [|h l IH]; simpl; [reflexivity|].
  rewrite insert_hit_perm. now rewrite IH.
Qed.

(** The row and the query have a term in common. *)
Definition shares_term (q_terms : list str) (r : chunk_row) : Prop :=
  Exists (fun t => t ∈ split (chunk_norm r)) q_terms.

Global Instance shares_term_dec q_terms r : Decision (shares_term q_terms r).
Proof. unfold shares_term. apply _. Defined.

Lemma row_hit_Some (q_terms : list str) (r : chunk_row) (h : Hit) :
  row_hit (list_to_set q_terms) r = Some h ->
  hit_url h = chunk_url r /\ hit_title h = chunk_title r /\
  hit_chunk h = chunk_text r /\ shares_term q_terms r.
Proof.
  unfold row_hit.
  destruct (is_empty (chunk_norm r)); [discriminate|].
  destruct (is_empty (split (chunk_norm r))); [discriminate|].
  destruct (Nat.leb_spec
              (size ((list_to_set q_terms : gset str) ∩ list_to_set (split (chunk_norm r)))) 0)
    as [|Hpos]; [discriminate|].
  intros [= <-]. simpl. repeat split.
  apply size_pos_elem_of in Hpos. destruct Hpos as (t & Ht).
  apply elem_of_intersection in Ht. destruct Ht as (Hq & Hc).
  apply elem_of_list_to_set in Hq, Hc.
  apply Exists_exists. exists t. now split.
Qed.

Lemma row_hit_None (q_terms : list str) (r : chunk_row) :
  ~ shares_term q_terms r -> row_hit (list_to_set q_terms) r = None.
Proof.
  intros Hno. destruct (row_hit (list_to_set q_terms) r) as [h|] eqn:E; [|reflexivity].
  apply row_hit_Some in E. tauto.
Qed.

Lemma omap_filter_None {A B} (f : A -> option B) (P : A -> Prop)
    `{forall x, Decision (P x)} (l : list A) :
  (forall x, ~ P x -> f x = None) -> omap f (filter P l) = omap f l.
Proof.
  intros Hf. induction l as [|x l IH]; [reflexivity|].
  rewrite filter_cons. change (x :: l) with ([x] ++ l).
  destruct (decide (P x)) as [Hx|Hx].
  - change (x :: filter P l) with ([x] ++ filter P l). now rewrite !omap_app, IH.
  - rewrite omap_app, IH. simpl. now rewrite (Hf x Hx).
Qed.

(** C3. Every Hit that search returns was built from a stored chunk row
    whose normalized terms share at least one term with the query's terms;
    and the rows that share no term with the query have no part in the
    result at all: for every k, search on the store gives what it gives on
    the store without those rows, so they are not used to fill up to k. *)
Theorem search_excludes_zero_overlap (d : db) (query : str) (k : Z) :
  Forall (fun h =>
            exists r, r ∈ chunks d /\
                      hit_url h = chunk_url r /\ hit_title h = chunk_title r /\
                      hit_chunk h = chunk_text r /\
                      shares_term (tokenize query) r)
         (search d query k) /\
  search d query k
    = search_rows (filter (shares_term (tokenize query)) (chunks d)) query k.
Proof.
  unfold search, search_rows. split.
  - destruct (is_empty (tokenize query)); [constructor|].
    apply Forall_forall. intros h Hh.
    apply slice_subseteq in Hh.
    apply list_elem_of_In in Hh.
    apply (Permutation_in _ (sort_hits_perm _)) in Hh.
    apply list_elem_of_In, list_elem_of_omap in Hh.
    destruct Hh as (r & Hr & Hhit).
    exists r. split; [assumption|]. now apply row_hit_Some.
  - destruct (is_empty (tokenize query)); [reflexivity|].
    rewrite (omap_filter_None _ (shares_term (tokenize query))); [reflexivity|].
    intros r. apply row_hit_None.
Qed.

End SearchFacts.

(** ** The end-to-end scenario

    For the example the float interface is filled with exact arithmetic on
    square roots of non-negative rationals: [{| rad_num := p; rad_den := q |}]
    stands for the square root of p/q. Every value [search] computes has
    this form, so the stand-in differs from IEEE doubles by rounding only. *)

Record sqrt_ratio := { rad_num : nat; rad_den : nat }.

Definition exact_floats : FloatOps :=
  {| float := sqrt_ratio;
     float_of_nat n := {| rad_num := n * n; rad_den := 1 |};
     pow_half n := {| rad_num := n; rad_den := 1 |};
     fmul a b := {| rad_num := rad_num a * rad_num b; rad_den := rad_den a * rad_den b |};
     fdiv a b := {| rad_num := rad_num a * rad_den b; rad_den := rad_den a * rad_num b |};
     ftruthy a := negb (rad_num a =? 0)%nat;
     fltb a b := (rad_num a * rad_den b <? rad_num b * rad_den a)%nat |}.

Definition indexed_site : db := outcome_db (run (site 1000) empty_db 14 10).

Example site_is_indexed :
  map fst (map_to_list (docs indexed_site)) ≡ₚ [url_seed; url_a; url_b] /\
  map (fun r => (chunk_id r, chunk_url r, chunk_text r)) (chunks indexed_site)
    = [(1%Z, url_seed, lit "regulations index");
       (2%Z, url_a, lit "fee schedule for registration");
       (3%Z, url_b, lit "graduation requirements")].
Proof. split; [vm_compute; reflexivity | vm_compute; reflexivity]. Qed.

Example search_registration_fee :
  map (@hit_url exact_floats)
      (search (H := latin_unicode) (H0 := exact_floats)
         indexed_site (lit "registration fee") 1)
    = [url_a].
Proof. vm_compute. reflexivity. Qed.

Example search_without_match_is_empty :
  search (H := latin_unicode) (H0 := exact_floats) indexed_site (lit "library hours") 6 = [].
Proof. vm_compute. reflexivity. Qed.

(** * Further properties of the module *)

(** ** [normalize_text]: the normal form *)

Definition all_space (ws : str) : Prop := Forall (fun c => isspace c = true) ws.

Lemma lstrip_decomp (s : str) : exists ws, s = ws ++ lstrip s /\ all_space ws.
Proof.
  induction s as [|c r (ws & Hr & Hws)]; simpl.
  - exists []. split; [reflexivity | constructor].
  - destruct (isspace c) eqn:Hc.
    + exists (c :: ws). split; [simpl; now rewrite <- Hr | now constructor].
    + exists []. split; [reflexivity | constructor].
Qed.

Lemma lstrip_head (s : str) (c : N) (r : str) : lstrip s = c :: r -> isspace c = false.
Proof.
  induction s as [|x s IH]; simpl; [discriminate|].
  destruct (isspace x) eqn:Hx; [exact IH|]. now intros [= <- _].
Qed.

Lemma rstrip_decomp (s : str) : exists ws, s = rstrip s ++ ws /\ all_space ws.
Proof.
  destruct (lstrip_decomp (rev s)) as (ws & Hs & Hws).
  exists (rev ws). split.
  - unfold rstrip. rewrite <- rev_app_distr, <- Hs. now rewrite rev_involutive.
  - now apply Forall_rev.
Qed.

Lemma rstrip_last (s r : str) (c : N) : rstrip s = r ++ [c] -> isspace c = false.
Proof.
  unfold rstrip. intros Hs. apply (f_equal (@rev N)) in Hs.
  rewrite rev_involutive, rev_app_distr in Hs. simpl in Hs.
  eapply lstrip_head. exact Hs.
Qed.

Lemma strip_decomp (s : str) :
  exists pre post, s = pre ++ strip s ++ post /\ all_space pre /\ all_space post.
Proof.
  destruct (lstrip_decomp s) as (pre & Hs & Hpre).
  destruct (rstrip_decomp (lstrip s)) as (post & Hl & Hpost).
  exists pre, post. unfold strip. now rewrite <- Hl.
Qed.

(** A string that neither starts nor ends with whitespace. *)
Definition trimmed (s : str) : Prop :=
  (forall c r, s = c :: r -> isspace c = false) /\
  (forall r c, s = r ++ [c] -> isspace c = false).

Lemma strip_trimmed (s : str) : trimmed (strip s).
Proof.
  split.
  - intros c r Hs. destruct (rstrip_decomp (lstrip s)) as (post & Hl & _).
    fold (strip s) in Hl. rewrite Hs in Hl. eapply lstrip_head. exact Hl.
  - intros r c Hs. eapply rstrip_last. exact Hs.
Qed.

(** A string whose only whitespace is single ASCII spaces: every whitespace
    character is U+0020 and no two whitespace characters are adjacent. *)
Definition single_spaced (s : str) : Prop :=
  Forall (fun c => isspace c = true -> c = SPACE) s /\
  (forall l1 a b l2, s = l1 ++ a :: b :: l2 -> isspace a = true -> isspace b = false).

Lemma sub_ws_single_spaced (s : str) (in_run : bool) :
  single_spaced (sub_ws in_run s) /\
  (in_run = true -> forall c r, sub_ws in_run s = c :: r -> isspace c = false).
Proof.
  revert in_run. induction s as [|c s IH]; intros in_run; simpl.
  - split; [split; [constructor|]|]; [intros [|? ?] ? ? ? ?; discriminate | discriminate].
  - destruct (isspace c) eqn:Hc.
    + destruct in_run; [apply IH|].
      destruct (IH true) as [[Hall Hadj] Hhd].
      split; [split|discriminate].
      * constructor; [reflexivity | exact Hall].
      * intros [|x l1] a b l2 Heq Ha.
        -- injection Heq as <- Hrest. eapply Hhd; [reflexivity | exact Hrest].
        -- injection Heq as _ Hrest. eapply Hadj; eassumption.
    + destruct (IH false) as [[Hall Hadj] _].
      split; [split|].
      * constructor; [congruence | exact Hall].
      * intros [|x l1] a b l2 Heq Ha.
        -- injection Heq as <- _. congruence.
        -- injection Heq as _ Hrest. eapply Hadj; eassumption.
      * intros _ c' r [= <- _]. exact Hc.
Qed.

Lemma single_spaced_infix (pre t post : str) :
  single_spaced (pre ++ t ++ post) -> single_spaced t.
Proof.
  intros [Hall Hadj]. split.
  - apply Forall_app in Hall. destruct Hall as [_ Hall].
    apply Forall_app in Hall. tauto.
  - intros l1 a b l2 -> Ha. apply (Hadj (pre ++ l1) a b (l2 ++ post)); [|exact Ha].
    now rewrite <- !app_assoc.
Qed.

Lemma collapse_strip_normal_form (s : str) :
  single_spaced (strip (sub_ws false s)) /\ trimmed (strip (sub_ws false s)).
Proof.
  split; [|apply strip_trimmed].
  destruct (strip_decomp (sub_ws false s)) as (pre & post & Heq & _).
  apply (single_spaced_infix pre _ post). rewrite <- Heq.
  apply sub_ws_single_spaced.
Qed.

Section NormalizeFacts.
Context `{Unicode}.

(** X1. The result of normalize_text holds no whitespace other than single
    ASCII spaces, each between two non-whitespace characters: every
    whitespace character in it is U+0020, no two are adjacent, and it
    neither starts nor ends with one. *)
Theorem normalize_text_normal_form (s : str) :
  single_spaced (normalize_text s) /\ trimmed (normalize_text s).
Proof.
  unfold normalize_text.
  apply (collapse_strip_normal_form (replace_char NBSP SPACE (lower s))).
Qed.

End NormalizeFacts.

(** *** Normalizing a normal form *)

Lemma replace_char_absent (a b : N) (s : str) :
  Forall (fun c => c ≠ a) s -> replace_char a b s = s.
Proof.
  unfold replace_char. induction 1 as [|c r Hc _ IH]; simpl; [reflexivity|].
  rewrite IH. apply N.eqb_neq in Hc. now rewrite Hc.
Qed.

Lemma single_spaced_tail (c : N) (s : str) : single_spaced (c :: s) -> single_spaced s.
Proof. intros Hs. apply (single_spaced_infix [c] s []). now rewrite app_nil_r. Qed.

Lemma sub_ws_single_spaced_id (s : str) (in_run : bool) :
  single_spaced s ->
  (in_run = true -> forall c r, s = c :: r -> isspace c = false) ->
  sub_ws in_run s = s.
Proof.
  revert in_run. induction s as [|c s IH]; intros in_run Hs Hhd; simpl; [reflexivity|].
  pose proof (single_spaced_tail c s Hs) as Htail. destruct Hs as [Hall Hadj].
  destruct (isspace c) eqn:Hc.
  - destruct in_run; [rewrite (Hhd eq_refl c s eq_refl) in Hc; discriminate|].
    inversion Hall as [|? ? Hsp _]; subst. rewrite <- (Hsp Hc).
    f_equal. apply IH; [exact Htail|].
    intros _ c' r ->. apply (Hadj [] c c' r eq_refl Hc).
  - f_equal. apply IH; [exact Htail | discriminate].
Qed.

Lemma lstrip_id (s : str) : (forall c r, s = c :: r -> isspace c = false) -> lstrip s = s.
Proof. destruct s as [|c r]; [reflexivity|]. intros Hs. simpl. now rewrite (Hs c r eq_refl). Qed.

Lemma trimmed_strip_id (s : str) : trimmed s -> strip s = s.
Proof.
  intros [Hhd Hlast]. unfold strip. rewrite (lstrip_id s Hhd).
  unfold rstrip. rewrite lstrip_id; [apply rev_involutive|].
  intros c r Hs. apply (Hlast (rev r) c).
  apply (f_equal (@rev N)) in Hs. now rewrite rev_involutive in Hs.
Qed.

Section NormalizeTwice.
Context `{Unicode}.

(** X2. normalize_text is idempotent on every input whose normalized form
    is left unchanged by lower-casing it again: the whitespace steps have
    nothing left to do on a normalized string. *)
Theorem normalize_text_idempotent (s : str) :
  lower (normalize_text s) = normalize_text s ->
  normalize_text (normalize_text s) = normalize_text s.
Proof.
  intros Hlow.
  destruct (collapse_strip_normal_form (replace_char NBSP SPACE (lower s)))
    as [Hsingle Htrim].
  fold (normalize_text s) in Hsingle, Htrim.
  unfold normalize_text at 1. rewrite Hlow.
  rewrite replace_char_absent.
  - rewrite sub_ws_single_spaced_id; [now apply trimmed_strip_id | exact Hsingle | discriminate].
  - destruct Hsingle as [Hall _]. eapply Forall_impl; [exact Hall|].
    simpl. intros c Hc ->. specialize (Hc eq_refl). discriminate.
Qed.

End NormalizeTwice.

Lemma normalize_text_idempotent_witness :
  let s := lit "  Fee   Schedule,  2024 " in
  normalize_text (H := latin_unicode) s = lit "fee schedule, 2024" /\
  normalize_text (H := latin_unicode) (normalize_text (H := latin_unicode) s)
    = normalize_text (H := latin_unicode) s.
Proof.
  intros s. split; [reflexivity|].
  apply (normalize_text_idempotent (H := latin_unicode)). reflexivity.
Defined.

(** ** [tokenize]: what the whitespace steps do to the tokens *)

Section RunsAndWhitespace.
Variable p : N -> bool.
Hypothesis Hp : forall c, isspace c = true -> p c = false.

Lemma runs_replace_nbsp (s cur : str) :
  runs p cur (replace_char NBSP SPACE s) = runs p cur s.
Proof.
  revert cur. induction s as [|c s IH]; intros cur; simpl; [reflexivity|].
  destruct (N.eqb_spec c NBSP) as [->|Hne].
  - rewrite (Hp SPACE eq_refl), (Hp NBSP eq_refl). now rewrite IH.
  - destruct (p c); now rewrite IH.
Qed.

Lemma runs_sub_ws (s cur : str) (in_run : bool) :
  (in_run = true -> cur = []) ->
  runs p cur (sub_ws in_run s) = runs p cur s.
Proof.
  revert cur in_run. induction s as [|c s IH]; intros cur in_run Hcur; simpl; [reflexivity|].
  destruct (isspace c) eqn:Hc.
  - rewrite (Hp c Hc). destruct in_run.
    + rewrite (Hcur eq_refl). simpl. now apply IH.
    + simpl. rewrite (Hp SPACE eq_refl). f_equal. now apply IH.
  - simpl. destruct (p c); [|f_equal]; apply IH; discriminate.
Qed.

Lemma runs_space_prefix (ws s : str) : all_space ws -> runs p [] (ws ++ s) = runs p [] s.
Proof.
  induction 1 as [|c ws Hc _ IH]; simpl; [reflexivity|]. now rewrite (Hp c Hc).
Qed.

Lemma runs_space_only (ws cur : str) : all_space ws -> runs p cur ws = flush cur.
Proof.
  intros Hws. revert cur. induction Hws as [|c ws Hc _ IH]; intros cur; simpl; [reflexivity|].
  rewrite (Hp c Hc), IH. simpl. apply app_nil_r.
Qed.

Lemma runs_space_suffix (s ws cur : str) :
  all_space ws -> runs p cur (s ++ ws) = runs p cur s.
Proof.
  intros Hws. revert cur. induction s as [|c s IH]; intros cur; simpl.
  - now apply runs_space_only.
  - destruct (p c); now rewrite IH.
Qed.

Lemma runs_strip (s : str) : runs p [] (strip s) = runs p [] s.
Proof.
  destruct (strip_decomp s) as (pre & post & Heq & Hpre & Hpost).
  rewrite Heq at 2. rewrite runs_space_prefix by assumption.
  now rewrite runs_space_suffix.
Qed.

End RunsAndWhitespace.

Lemma space_not_token (c : N) : isspace c = true -> token_re_class c = false.
Proof.
  intros Hc. destruct (token_re_class c) eqn:Ht; [|reflexivity].
  apply token_char_not_space in Ht. congruence.
Qed.

Lemma runs_none (p : N -> bool) (s : str) :
  Forall (fun c => p c = false) s -> runs p [] s = [].
Proof. induction 1 as [|c s Hc _ IH]; simpl; [reflexivity|]. now rewrite Hc. Qed.

Section TokenizeWhitespace.
Context `{Unicode}.

(** X3. The tokens of a text are the maximal runs of token characters of
    its lower-cased form: replacing the no-break space, collapsing
    whitespace and trimming never change what tokenize returns. *)
Theorem tokenize_is_findall_of_lower (s : str) :
  tokenize s = token_re_findall (lower s).
Proof.
  unfold tokenize, normalize_text, token_re_findall.
  rewrite (runs_strip _ space_not_token).
  rewrite (runs_sub_ws _ space_not_token) by discriminate.
  apply (runs_replace_nbsp _ space_not_token).
Qed.

(** X4. Joining tokens with single spaces and tokenizing the result gives
    the tokens back, when lower-casing leaves the joined text unchanged. *)
Theorem tokenize_join_round_trip (toks : list str) :
  Forall (is_run token_re_class) toks ->
  lower (join [SPACE] toks) = join [SPACE] toks ->
  tokenize (join [SPACE] toks) = toks.
Proof.
  intros Htoks Hlow.
  unfold tokenize, normalize_text, token_re_findall.
  rewrite (runs_strip _ space_not_token).
  rewrite (runs_sub_ws _ space_not_token) by discriminate.
  rewrite (runs_replace_nbsp _ space_not_token), Hlow.
  apply runs_join; [reflexivity | exact Htoks].
Qed.

(** X5. A text whose lower-cased form holds no token character (the empty
    string, whitespace, punctuation) has no tokens. *)
Theorem tokenize_without_token_chars (s : str) :
  Forall (fun c => token_re_class c = false) (lower s) -> tokenize s = [].
Proof.
  intros Hs. unfold tokenize, normalize_text, token_re_findall.
  rewrite (runs_strip _ space_not_token).
  rewrite (runs_sub_ws _ space_not_token) by discriminate.
  rewrite (runs_replace_nbsp _ space_not_token).
  now apply runs_none.
Qed.

End TokenizeWhitespace.

Lemma tokenize_join_round_trip_witness :
  tokenize (H := latin_unicode) (lit "fee schedule 2024")
    = map lit ["fee"; "schedule"; "2024"]%string.
Proof.
  apply (tokenize_join_round_trip (H := latin_unicode)
           (map lit ["fee"; "schedule"; "2024"]%string)).
  - repeat constructor; discriminate.
  - reflexivity.
Defined.

Lemma tokenize_without_token_chars_witness :
  tokenize (H := latin_unicode) (lit " ?!  -- ... ") = [].
Proof.
  apply (tokenize_without_token_chars (H := latin_unicode)).
  vm_compute. repeat constructor.
Defined.

(** ** [chunk_tokens]: shape of the chunks and coverage *)

Lemma slice_infix {A} (l : list A) (a b : Z) :
  exists pre post, l = pre ++ slice l a b ++ post.
Proof.
  unfold slice.
  set (k := Z.to_nat (clamp_index (Z.of_nat (length l)) a)).
  set (m := Z.to_nat (clamp_index (Z.of_nat (length l)) b - clamp_index (Z.of_nat (length l)) a)).
  exists (take k l), (drop m (drop k l)).
  now rewrite (take_drop m (drop k l)), (take_drop k l).
Qed.

(** A chunk string: the join of a non-empty run of consecutive tokens of
    [T], of at most [chunk_size] tokens when [chunk_size] is positive. *)
Definition chunk_of (T : list str) (chunk_size : Z) (c : str) : Prop :=
  exists w, c = join [SPACE] w /\ w ≠ [] /\
            (exists pre post, T = pre ++ w ++ post) /\
            ((1 <= chunk_size)%Z -> (Z.of_nat (length w) <= chunk_size)%Z).

Lemma chunk_while_chunks T chunk_size step i out res :
  chunk_while T chunk_size step i out res ->
  (1 <= step)%Z -> (0 <= i)%Z ->
  exists added,
    res = out ++ added /\
    (Z.of_nat (length added) <= Z.max 0 (Z.of_nat (length T) - i))%Z /\
    Forall (chunk_of T chunk_size) added.
Proof.
  induction 1 as [i out _|i out i' out' res Hbody _ IH]; intros Hstep Hi.
  - exists []. rewrite app_nil_r. split; [reflexivity|]. split; [simpl; lia | constructor].
  - apply chunk_body_Some in Hbody. destruct Hbody as (Hlt & -> & Hne & ->).
    destruct (IH Hstep ltac:(lia)) as (added & -> & Hlen & Hall).
    exists (join [SPACE] (slice T i (i + chunk_size)) :: added).
    split; [now rewrite <- app_assoc|]. split; [simpl length; lia|].
    constructor; [|exact Hall].
    exists (slice T i (i + chunk_size)). split; [reflexivity|]. split; [exact Hne|].
    split; [apply slice_infix|].
    intros Hcs. rewrite slice_window by lia. rewrite length_take. lia.
Qed.

Lemma chunk_tokens_while (T : list str) (chunk_size overlap : Z) :
  chunk_while T chunk_size (chunk_step chunk_size overlap) 0 []
    (chunk_tokens T chunk_size overlap).
Proof.
  destruct (chunk_loop_enough_fuel T chunk_size _ (chunk_step_pos chunk_size overlap)
              (length T) 0%Z []) as (res & Hres & Hw); [lia|].
  unfold chunk_tokens. now rewrite Hres.
Qed.

(** X6. For every token list and every chunk_size and overlap, also
    misconfigured ones, chunk_tokens returns at most len(tokens) chunks
    (none for an empty list), and every chunk is the single-space join of a
    non-empty run of consecutive tokens, of at most chunk_size tokens when
    chunk_size is positive: no chunk is empty and none mixes tokens from
    distant places. *)
Theorem chunk_tokens_chunks (T : list str) (chunk_size overlap : Z) :
  (length (chunk_tokens T chunk_size overlap) <= length T)%nat /\
  Forall (chunk_of T chunk_size) (chunk_tokens T chunk_size overlap).
Proof.
  destruct (chunk_while_chunks _ _ _ _ _ _ (chunk_tokens_while T chunk_size overlap)
              (chunk_step_pos chunk_size overlap) ltac:(lia))
    as (added & Heq & Hlen & Hall).
  simpl in Heq. rewrite Heq. split; [lia | exact Hall].
Qed.

Lemma lookup_nth_error {A} (l : list A) (i : nat) : l !! i = nth_error l i.
Proof. revert i. induction l as [|x l IH]; intros [|i]; simpl; auto. Qed.

(** X7. With chunk_size > overlap >= 0 no token is lost: the token at any
    position j of T lies in the window of chunk number j div step, at
    offset j mod step, and that chunk is emitted. *)
Theorem chunk_tokens_cover (T : list str) (chunk_size overlap : Z) (j : nat) (tok : str) :
  (chunk_size > overlap)%Z -> (overlap >= 0)%Z ->
  T !! j = Some tok ->
  let step := Z.to_nat (chunk_size - overlap) in
  let w := take (Z.to_nat chunk_size) (drop (j / step * step) T) in
  chunk_tokens T chunk_size overlap !! (j / step)%nat = Some (join [SPACE] w) /\
  w !! (j mod step)%nat = Some tok.
Proof.
  intros Hgt Hov Hj step w.
  assert (Hstep : chunk_step chunk_size overlap = Z.of_nat step)
    by (unfold chunk_step; subst step; lia).
  assert (Hpos : (0 < step)%nat) by (subst step; lia).
  pose proof (lookup_lt_Some _ _ _ Hj) as Hlt.
  pose proof (Nat.div_mod_eq j step) as Hdiv.
  pose proof (Nat.mod_upper_bound j step ltac:(lia)) as Hmod.
  split.
  - rewrite chunk_tokens_windows by lia. cbv zeta. rewrite Hstep.
    rewrite lookup_nth_error, nth_error_map, nth_error_seq.
    assert (Hk : (j / step < window_count (length T) (Z.of_nat step))%nat).
    { apply window_count_spec; nia. }
    apply Nat.ltb_lt in Hk. rewrite Hk. simpl. unfold window.
    now rewrite Nat2Z.id.
  - subst w. rewrite lookup_take_lt by (subst step; lia).
    rewrite lookup_drop. rewrite <- Hj. f_equal. lia.
Qed.

Lemma chunk_tokens_cover_witness :
  let T := map lit ["a"; "b"; "c"; "d"; "e"]%string in
  chunk_tokens T 3 1 !! 2%nat = Some (lit "e") /\
  take 3 (drop 4 T) !! 0%nat = Some (lit "e").
Proof.
  intros T.
  exact (chunk_tokens_cover T 3 1 4 (lit "e") ltac:(lia) ltac:(lia) eq_refl).
Defined.

(** ** [extract_text_from_html] *)

(** The line boundaries of [str.splitlines]. *)
Definition is_linebreak (c : N) : bool :=
  ((10 <=? c) && (c <=? 13) || (28 <=? c) && (c <=? 30) ||
   (c =? 0x85) || (c =? 0x2028) || (c =? 0x2029))%N.

Definition LF : N := 10.
Definition CR : N := 13.

(** [s.splitlines()]: [cur] is the line being read, most recent character
    first; [after_cr] records that the previous character was a carriage
    return, whose line feed, if it follows, belongs to the same boundary. A
    final line without boundary is kept unless it is empty. *)
Fixpoint splitlines_from (cur : str) (after_cr : bool) (s : str) : list str :=
  match s with
  | [] => flush cur
  | c :: r =>
      if after_cr && (c =? LF)%N then splitlines_from cur false r
      else if is_linebreak c then rev cur :: splitlines_from [] (c =? CR)%N r
      else splitlines_from (c :: cur) false r
  end.

Definition splitlines (s : str) : list str := splitlines_from [] false s.

(** [BeautifulSoup(html, "html.parser")], the six kinds of tags decomposed,
    then [get_text(separator="\n")]. *)
Class HtmlText := { soup_get_text : str -> str }.

(** [[ln.strip() for ln in text.splitlines() if ln.strip()]] *)
Definition stripped_lines (text : str) : list str :=
  omap (fun ln => if is_empty (strip ln) then None else Some (strip ln)) (splitlines text).

Definition extract_text_from_html `{HtmlText} (html : str) : str :=
  let text := soup_get_text html in
  let lines := stripped_lines text in
  join [LF] lines.

Definition no_linebreak (ln : str) : Prop := Forall (fun c => is_linebreak c = false) ln.

Lemma flush_no_linebreak (cur : str) : no_linebreak cur -> Forall no_linebreak (flush cur).
Proof.
  intros Hcur. destruct cur as [|c r]; [constructor|].
  constructor; [|constructor]. now apply Forall_rev.
Qed.

Lemma splitlines_from_no_linebreak (s cur : str) (after_cr : bool) :
  no_linebreak cur -> Forall no_linebreak (splitlines_from cur after_cr s).
Proof.
  revert cur after_cr. induction s as [|c s IH]; intros cur after_cr Hcur; simpl.
  - now apply flush_no_linebreak.
  - destruct (after_cr && (c =? LF)%N); [now apply IH|].
    destruct (is_linebreak c) eqn:Hc.
    + constructor; [now apply Forall_rev | apply IH; constructor].
    + apply IH. now constructor.
Qed.

Lemma splitlines_from_line (t s cur : str) (after_cr : bool) :
  no_linebreak t ->
  splitlines_from cur after_cr (t ++ s)
    = splitlines_from (rev t ++ cur) (after_cr && is_empty t) s.
Proof.
  intros Ht. revert cur after_cr. induction Ht as [|c t Hc _ IH]; intros cur after_cr; simpl.
  - now rewrite andb_true_r.
  - assert (Hlf : (c =? LF)%N = false).
    { apply N.eqb_neq. intros ->. discriminate. }
    rewrite Hlf, andb_false_r, Hc, IH, <- app_assoc. reflexivity.
Qed.

Lemma splitlines_join (ls : list str) :
  Forall (fun ln => ln ≠ [] /\ no_linebreak ln) ls ->
  splitlines (join [LF] ls) = ls.
Proof.
  unfold splitlines. induction 1 as [|x r [Hne Hx] Hr IH]; [reflexivity|].
  destruct r as [|y r'].
  - simpl. rewrite <- (app_nil_r x) at 1. rewrite splitlines_from_line by assumption.
    simpl. rewrite app_nil_r. now apply flush_rev_nonempty.
  - change (join [LF] (x :: y :: r')) with (x ++ LF :: join [LF] (y :: r')).
    rewrite splitlines_from_line by assumption.
    destruct x as [|c x']; [congruence|].
    cbn [is_empty]. rewrite app_nil_r. cbn [splitlines_from andb is_linebreak].
    change (is_linebreak LF) with true. cbn iota.
    rewrite rev_involutive. f_equal. exact IH.
Qed.

Lemma no_linebreak_strip (ln : str) : no_linebreak ln -> no_linebreak (strip ln).
Proof.
  intros Hln. destruct (strip_decomp ln) as (pre & post & Heq & _).
  unfold no_linebreak in *. rewrite Heq in Hln.
  apply Forall_app in Hln. destruct Hln as [_ Hln].
  apply Forall_app in Hln. tauto.
Qed.

(** A line as [extract_text_from_html] emits them. *)
Definition clean_line (ln : str) : Prop := ln ≠ [] /\ trimmed ln /\ no_linebreak ln.

Lemma stripped_lines_clean (text : str) : Forall clean_line (stripped_lines text).
Proof.
  unfold stripped_lines. apply Forall_forall. intros ln Hln.
  apply list_elem_of_omap in Hln. destruct Hln as (raw & Hraw & Hstrip).
  destruct (strip raw) as [|c r] eqn:E; [discriminate|].
  simpl in Hstrip. injection Hstrip as <-. rewrite <- E.
  split; [rewrite E; discriminate|]. split; [apply strip_trimmed|].
  apply no_linebreak_strip.
  pose proof (splitlines_from_no_linebreak text [] false ltac:(constructor)) as Hall.
  rewrite Forall_forall in Hall. now apply Hall.
Qed.

Lemma stripped_lines_of_clean (ls : list str) :
  Forall clean_line ls -> stripped_lines (join [LF] ls) = ls.
Proof.
  intros Hls. unfold stripped_lines. rewrite splitlines_join.
  - induction Hls as [|ln r (Hne & Htrim & _) _ IH]; [reflexivity|].
    change (ln :: r) with ([ln] ++ r). rewrite omap_app, IH. simpl.
    rewrite (trimmed_strip_id ln Htrim). destruct ln; [congruence | reflexivity].
  - eapply Forall_impl; [exact Hls|]. intros ln (Hne & _ & Hnb). now split.
Qed.

(** X8. The text that extract_text_from_html returns consists of lines
    separated by single line feeds, none of them empty, none starting or
    ending with whitespace and none holding another line boundary; reading
    its lines back gives exactly those lines, so cleaning a cleaned text
    changes nothing. *)
Theorem extract_text_from_html_lines `{HtmlText} (html : str) :
  exists lines,
    extract_text_from_html html = join [LF] lines /\
    Forall clean_line lines /\
    splitlines (extract_text_from_html html) = lines /\
    join [LF] (stripped_lines (extract_text_from_html html)) = extract_text_from_html html.
Proof.
  exists (stripped_lines (soup_get_text html)).
  pose proof (stripped_lines_clean (soup_get_text html)) as Hclean.
  unfold extract_text_from_html. split; [reflexivity|]. split; [exact Hclean|]. split.
  - apply splitlines_join. eapply Forall_impl; [exact Hclean|].
    intros ln (Hne & _ & Hnb). now split.
  - now rewrite stripped_lines_of_clean.
Qed.

Example stripped_lines_example :
  stripped_lines [0x20; 0x41; 0x0d; 0x0a; 0x0d; 0x09; 0x42; 0x20; 0x43; 0x0b; 0x20; 0x0a]%N
    = [lit "A"; lit "B C"].
Proof. reflexivity. Qed.

(** ** [ensure_index]: what a run leaves in the store *)

(** The rows of [chunks] for a URL, without their ids, in storage order. *)
Definition stored_rows (u : str) (d : db) : list (str * str * str * str) :=
  map (fun r => (chunk_url r, chunk_title r, chunk_text r, chunk_norm r))
      (filter (fun r => chunk_url r = u) (chunks d)).

Lemma stored_rows_number_rows (seq : Z) (rows : list (str * str * str * str)) :
  map (fun r => (chunk_url r, chunk_title r, chunk_text r, chunk_norm r))
      (number_rows seq rows) = rows.
Proof.
  revert seq. induction rows as [|[[[u t] c] cn] rest IH]; intros seq; simpl; [reflexivity|].
  now rewrite IH.
Qed.

Lemma filter_all {A} (P : A -> Prop) `{forall x, Decision (P x)} (l : list A) :
  Forall P l -> filter P l = l.
Proof.
  induction 1 as [|x l Hx _ IH]; [reflexivity|].
  rewrite filter_cons_True by assumption. now rewrite IH.
Qed.

Lemma slice_from_start {A} (l : list A) (m : Z) :
  (0 <= m)%Z -> slice l 0 m = take (Z.to_nat m) l.
Proof.
  intros Hm. pose proof (slice_window l 0 m ltac:(lia) Hm) as Hw.
  rewrite Z.add_0_l in Hw. exact Hw.
Qed.

Section IndexedDocuments.
Context `{Unicode} `{UrlLib} `{HtmlParser}.
Variable self : MevzuatKB.
Variable w : world.

(** What the store holds for [u] after [u] was indexed from [text]. *)
Definition indexed_from (u text : str) (d : db) : Prop :=
  docs d !! u = Some {| doc_title := url_title u; doc_fetched_at := now w;
                        doc_content := slice text 0 MAX_CHARS |} /\
  stored_rows u d = chunk_rows u (url_title u) (slice text 0 MAX_CHARS).

Lemma reindexed_indexed_from (u text : str) (d : db) :
  indexed_from u text (reindexed w u (slice text 0 MAX_CHARS) d).
Proof.
  split.
  - unfold reindexed. simpl. apply lookup_insert_eq.
  - unfold stored_rows, reindexed. simpl.
    rewrite filter_app, list_filter_filter.
    rewrite (filter_none (fun r => chunk_url r = u /\ chunk_url r ≠ u)).
    + rewrite filter_all; [apply stored_rows_number_rows|].
      apply number_rows_url, chunk_rows_url.
    + apply Forall_forall. intros r _. tauto.
Qed.

Lemma indexed_from_unchanged (u text : str) (d d' : db) :
  unchanged_at u d d' -> indexed_from u text d -> indexed_from u text d'.
Proof.
  intros [Hdocs Hrows] [Hdoc Hstored]. split.
  - now rewrite Hdocs.
  - unfold stored_rows in *. now rewrite Hrows.
Qed.

Lemma url_pass_written_indexed (R : Z) (v u : str) d d' evs :
  url_pass w R v d (inr tt) d' evs -> u ∈ written_urls evs ->
  exists text, page_text w u = Some text /\ indexed_from u text d'.
Proof.
  intros Hpass Hu. inversion Hpass as [| |text Hf Hp Hs|]; subst.
  - now apply not_elem_of_nil in Hu.
  - now apply not_elem_of_nil in Hu.
  - apply (written_urls_write_events v [UpsertDoc; DeleteChunks; InsertChunks]) in Hu.
    subst u. exists text. split; [assumption | apply reindexed_indexed_from].
Qed.

Lemma loop_run_written_indexed (R : Z) l d d' evs (u : str) :
  loop_run w R l d (inr tt) d' evs -> u ∈ written_urls evs ->
  exists text, page_text w u = Some text /\ indexed_from u text d'.
Proof.
  intros Hrun. remember (inr tt) as res eqn:Hres. revert Hres.
  induction Hrun as [d|v rest d d1 evs1 res d2 evs2 Hpass Hrest IH|v rest d e d1 evs1 Hpass];
    intros Hres Hu; try discriminate.
  - now apply not_elem_of_nil in Hu.
  - subst res. destruct (decide (u ∈ written_urls evs2)) as [Hin|Hout].
    + now apply IH.
    + rewrite written_urls_app in Hu. apply elem_of_app in Hu.
      destruct Hu as [Hu|Hu]; [|contradiction].
      destruct (url_pass_written_indexed R v u _ _ _ Hpass Hu) as (text & Hp & Hidx).
      exists text. split; [assumption|].
      eapply indexed_from_unchanged; [|exact Hidx].
      eapply loop_run_frame; eassumption.
Qed.

(** X9. After a run that returns, every URL that was written in the run has
    a Document whose title is the last path segment of the URL, whose
    fetched_at is the time of the run and whose content is the page's text
    cut to 120000 characters, and its chunk rows are exactly the rows built
    from that content, in order: no rows of an earlier version remain. *)
Theorem written_url_is_indexed (d : db) (refresh_days max_pages : Z)
    (d' : db) (tr : list event) (u : str) :
  ensure_index self w d refresh_days max_pages = Returned d' tr ->
  u ∈ written_urls tr ->
  exists text,
    page_text w u = Some text /\
    indexed_from u text d' /\
    (Z.of_nat (length (slice text 0 MAX_CHARS)) <= 120000)%Z.
Proof.
  intros Hret Hu.
  pose proof (ensure_index_run self w d refresh_days max_pages) as Hrun.
  destruct (seed_response w) as [html|]; [|rewrite Hrun in Hret; discriminate].
  destruct Hrun as (res & d1 & evs & Hloop & Heq).
  rewrite Heq in Hret. destruct res as [e|[]]; [discriminate|].
  injection Hret as <- <-.
  destruct (loop_run_written_indexed _ _ _ _ _ u Hloop Hu) as (text & Hp & Hidx).
  exists text. split; [assumption|]. split; [assumption|].
  rewrite slice_from_start by (unfold MAX_CHARS; lia).
  rewrite length_take. unfold MAX_CHARS. lia.
Qed.

Lemma loop_run_indexes_stale (R : Z) l d res d' evs (u text : str) :
  loop_run w R l d res d' evs ->
  res = inr tt ->
  fresh_at (now w) R d u = false ->
  page_text w u = Some text ->
  u ∈ l ->
  u ∈ written_urls evs.
Proof.
  induction 1 as [d|v rest d d1 evs1 res d2 evs2 Hpass Hrest IH|v rest d e d1 evs1 Hpass];
    intros Hres Hstale Hpage Hu; try discriminate.
  - now apply not_elem_of_nil in Hu.
  - rewrite written_urls_app. apply elem_of_app.
    destruct (decide (u ∈ written_urls evs1)) as [Hin|Hout]; [now left|right].
    assert (Hne : u ≠ v).
    { intros ->. apply Hout. inversion Hpass; subst; try congruence. simpl. left. }
    apply IH; try assumption.
    + pose proof (url_pass_frame w R v d d1 evs1 u Hpass Hout) as [Hdocs _].
      now rewrite (fresh_at_docs _ _ d d1 u Hdocs).
    + apply elem_of_cons in Hu. destruct Hu as [Hu|Hu]; [contradiction | assumption].
Qed.

(** X10. In a run that returns, every candidate URL whose Document is
    missing or older than the refresh window and whose page can be fetched
    is written in that run. *)
Theorem stale_candidate_is_indexed (d : db) (refresh_days max_pages : Z)
    (html : str) (d' : db) (tr : list event) (u text : str) :
  seed_response w = Some html ->
  ensure_index self w d refresh_days max_pages = Returned d' tr ->
  u ∈ candidates self html max_pages ->
  fresh_at (now w) (refresh_days * 24 * 3600) d u = false ->
  page_text w u = Some text ->
  u ∈ written_urls tr /\ u ∈ fetched_urls tr.
Proof.
  intros Hseed Hret Hu Hstale Hpage.
  pose proof (ensure_index_run self w d refresh_days max_pages) as Hrun.
  rewrite Hseed in Hrun. destruct Hrun as (res & d1 & evs & Hloop & Heq).
  rewrite Heq in Hret. destruct res as [e|[]]; [discriminate|].
  injection Hret as <- <-.
  assert (Hw : u ∈ written_urls evs).
  { eapply loop_run_indexes_stale; eauto. }
  split; [exact Hw|].
  now destruct (loop_run_written w _ _ _ _ _ _ u Hloop Hw) as (_ & _ & Hf).
Qed.

End IndexedDocuments.

Lemma written_url_is_indexed_witness :
  let o := run (site 1000) empty_db 14 600 in
  exists text,
    page_text (site 1000) url_a = Some text /\
    indexed_from (H := latin_unicode) (site 1000) url_a text (outcome_db o) /\
    (Z.of_nat (length (slice text 0 MAX_CHARS)) <= 120000)%Z.
Proof.
  intros o.
  assert (Hret : o = Returned (outcome_db o) (outcome_trace o)) by (vm_compute; reflexivity).
  apply (written_url_is_indexed (H := latin_unicode) (H0 := plain_urllib)
           (H1 := href_list_parser) MevzuatKB_init (site 1000) empty_db 14 600
           (outcome_db o) (outcome_trace o) url_a Hret).
  apply (bool_decide_unpack _). vm_compute. exact I.
Defined.

Lemma stale_candidate_is_indexed_witness :
  let o := run (site_a_down 1000) empty_db 14 600 in
  url_b ∈ written_urls (outcome_trace o) /\ url_b ∈ fetched_urls (outcome_trace o).
Proof.
  intros o.
  assert (Hret : o = Returned (outcome_db o) (outcome_trace o)) by (vm_compute; reflexivity).
  apply (stale_candidate_is_indexed (H := latin_unicode) (H0 := plain_urllib)
           (H1 := href_list_parser) MevzuatKB_init (site_a_down 1000) empty_db 14 600
           site_seed_page (outcome_db o) (outcome_trace o) url_b
           (lit "Graduation requirements") eq_refl Hret).
  - apply (bool_decide_unpack _). vm_compute. exact I.
  - reflexivity.
  - reflexivity.
Defined.

(** ** [ensure_index]: the page budget *)

Section PageBudget.
Context `{Unicode} `{UrlLib} `{HtmlParser}.
Variable self : MevzuatKB.
Variable w : world.

Lemma url_pass_fetch_count (R : Z) (u : str) d r d' evs :
  url_pass w R u d r d' evs -> (length (fetched_urls evs) <= 1)%nat.
Proof.
  intros Hpass. inversion Hpass as [| | |text op d0]; subst; simpl; try lia.
  destruct op; simpl; lia.
Qed.

Lemma loop_run_fetch_count (R : Z) l d res d' evs :
  loop_run w R l d res d' evs -> (length (fetched_urls evs) <= length l)%nat.
Proof.
  induction 1 as [d|u rest d d1 evs1 res d2 evs2 Hpass _ IH|u rest d e d1 evs1 Hpass].
  - simpl. lia.
  - rewrite fetched_urls_app, length_app. simpl.
    pose proof (url_pass_fetch_count _ _ _ _ _ _ Hpass). lia.
  - simpl. pose proof (url_pass_fetch_count _ _ _ _ _ _ Hpass). lia.
Qed.

Lemma candidates_length (html : str) (max_pages : Z) :
  (0 <= max_pages)%Z -> (length (candidates self html max_pages) <= Z.to_nat max_pages)%nat.
Proof.
  intros Hm. unfold candidates. rewrite slice_from_start by assumption.
  rewrite length_take. lia.
Qed.

(** X11. A run of ensure_index with max_pages >= 0 calls fetch_url_text at
    most max_pages times, whether it returns or raises; with max_pages = 0
    it fetches no page and leaves the store as it was. When max_pages >= 1
    the seed URL is the first candidate, so truncation never drops it. *)
Theorem page_fetches_within_budget (d : db) (refresh_days max_pages : Z) :
  (0 <= max_pages)%Z ->
  let o := ensure_index self w d refresh_days max_pages in
  (length (fetched_urls (outcome_trace o)) <= Z.to_nat max_pages)%nat /\
  (max_pages = 0%Z -> fetched_urls (outcome_trace o) = [] /\ outcome_db o = d) /\
  (forall html, (1 <= max_pages)%Z ->
     head (candidates self html max_pages) = Some (seed_url self)).
Proof.
  intros Hm o.
  assert (Hcount : (length (fetched_urls (outcome_trace o)) <= Z.to_nat max_pages)%nat).
  { subst o. pose proof (ensure_index_run self w d refresh_days max_pages) as Hrun.
    destruct (seed_response w) as [html|].
    - destruct Hrun as (res & d' & evs & Hloop & ->).
      pose proof (loop_run_fetch_count _ _ _ _ _ _ Hloop) as Hlen.
      pose proof (candidates_length html max_pages Hm).
      destruct res; simpl; lia.
    - rewrite Hrun. simpl. lia. }
  split; [exact Hcount|]. split.
  - intros ->. split.
    + destruct (fetched_urls (outcome_trace o)); [reflexivity | simpl in Hcount; lia].
    + subst o. unfold ensure_index, candidates.
      destruct (seed_response w); reflexivity.
  - intros html Hone. unfold candidates. rewrite slice_from_start by lia.
    destruct (Z.to_nat max_pages) eqn:E; [lia | reflexivity].
Qed.

End PageBudget.

Lemma page_fetches_within_budget_witness :
  let o := run (site 1000) empty_db 14 2 in
  (length (fetched_urls (outcome_trace o)) <= 2)%nat /\
  fetched_urls (outcome_trace o) = [url_seed; url_a].
Proof.
  intros o. split; [|vm_compute; reflexivity].
  exact (proj1 (page_fetches_within_budget (H := latin_unicode) (H0 := plain_urllib)
                  (H1 := href_list_parser) MevzuatKB_init (site 1000) empty_db 14 2
                  ltac:(lia))).
Defined.

(** ** [ensure_index]: consistency of the two tables *)

Lemma number_rows_Forall (Q : str * str * str * str -> Prop) (seq : Z)
    (rows : list (str * str * str * str)) :
  Forall Q rows ->
  Forall (fun r => Q (chunk_url r, chunk_title r, chunk_text r, chunk_norm r))
         (number_rows seq rows).
Proof.
  intros Hrows. revert seq.
  induction Hrows as [|[[[u t] c] cn] rest Hrow _ IH]; intros seq; simpl; constructor; auto.
Qed.

Section TableConsistency.
Context `{Unicode} `{UrlLib} `{HtmlParser}.
Variable self : MevzuatKB.
Variable w : world.

(** Every chunk row belongs to a stored Document, carries the title derived
    from its URL, and its normalized text is the space-joined tokens of its
    chunk text. *)
Definition row_consistent (d : db) (r : chunk_row) : Prop :=
  is_Some (docs d !! chunk_url r) /\
  chunk_title r = url_title (chunk_url r) /\
  chunk_norm r = join [SPACE] (tokenize (chunk_text r)).

Definition db_consistent (d : db) : Prop := Forall (row_consistent d) (chunks d).

Lemma reindexed_consistent (u text : str) (d : db) :
  db_consistent d -> db_consistent (reindexed w u text d).
Proof.
  unfold db_consistent, reindexed. simpl. intros Hd.
  apply Forall_app. split.
  - apply Forall_forall. intros r Hr. apply list_elem_of_filter in Hr.
    destruct Hr as [_ Hr]. rewrite Forall_forall in Hd.
    destruct (Hd r Hr) as (Hdoc & Htitle & Hnorm).
    split; [|now split]. simpl.
    destruct (decide (u = chunk_url r)) as [<-|Hne].
    + rewrite lookup_insert_eq. eauto.
    + now rewrite lookup_insert_ne.
  - apply (number_rows_Forall
             (fun '(url, title, c, cn) =>
                is_Some (<[u:={| doc_title := url_title u; doc_fetched_at := now w;
                                 doc_content := text |}]> (docs d) !! url) /\
                title = url_title url /\ cn = join [SPACE] (tokenize c))).
    unfold chunk_rows. apply Forall_map. apply Forall_forall. intros c _. simpl.
    rewrite lookup_insert_eq. eauto.
Qed.

Lemma loop_run_consistent (R : Z) l d d' evs :
  loop_run w R l d (inr tt) d' evs -> db_consistent d -> db_consistent d'.
Proof.
  intros Hrun. remember (inr tt) as res eqn:Hres. revert Hres.
  induction Hrun as [d|v rest d d1 evs1 res d2 evs2 Hpass _ IH|v rest d e d1 evs1 Hpass];
    intros Hres Hd; try discriminate.
  - assumption.
  - apply IH; [assumption|].
    inversion Hpass; subst; try assumption. now apply reindexed_consistent.
Qed.

(** X12. A run of ensure_index keeps the two tables consistent: if before
    the run every chunk row belongs to a stored Document, has the title
    derived from its URL and a chunk_norm equal to the space-joined tokens
    of its chunk, then the same holds of the store after the run, whether
    the run returns or raises. *)
Theorem ensure_index_keeps_tables_consistent (d : db) (refresh_days max_pages : Z) :
  db_consistent d ->
  db_consistent (outcome_db (ensure_index self w d refresh_days max_pages)).
Proof.
  intros Hd.
  pose proof (ensure_index_run self w d refresh_days max_pages) as Hrun.
  destruct (seed_response w) as [html|]; [|now rewrite Hrun].
  destruct Hrun as (res & d' & evs & Hloop & ->).
  destruct res as [e|[]]; simpl; [assumption|].
  eapply loop_run_consistent; eassumption.
Qed.

End TableConsistency.

Lemma ensure_index_keeps_tables_consistent_witness :
  db_consistent (H := latin_unicode) (outcome_db (run (site 1000) empty_db 14 600)).
Proof.
  apply (ensure_index_keeps_tables_consistent (H := latin_unicode) (H0 := plain_urllib)
           (H1 := href_list_parser) MevzuatKB_init (site 1000) empty_db 14 600).
  constructor.
Defined.

(** ** The caller: [KBInitWorker.run] in app_qt.py *)




Section RaisedRuns.
Context `{Unicode} `{UrlLib} `{HtmlParser}.
Variable w : world.


End RaisedRuns.

Section WorkerFacts.
Context `{Unicode} `{UrlLib} `{HtmlParser}.
Variable KB : MevzuatKB.
Variable w : world.


End WorkerFacts.


(** ** [search]: how many hits, and in which order *)

Lemma Sorted_take {A} (Rel : A -> A -> Prop) (n : nat) (l : list A) :
  Sorted Rel l -> Sorted Rel (take n l).
Proof.
  intros Hl. revert n. induction Hl as [|x l Hl IH Hhd]; intros [|n]; simpl; try constructor.
  - apply IH.
  - destruct Hhd as [|y l' Hxy]; [destruct n; constructor|].
    destruct n; constructor. exact Hxy.
Qed.

Lemma Sorted_drop {A} (Rel : A -> A -> Prop) (n : nat) (l : list A) :
  Sorted Rel l -> Sorted Rel (drop n l).
Proof.
  intros Hl. revert n. induction Hl as [|x l Hl IH Hhd]; intros [|n]; simpl;
    try constructor; auto.
Qed.

Lemma slice_length_from_start {A} (l : list A) (k : Z) :
  (0 <= k)%Z -> length (slice l 0 k) = Nat.min (Z.to_nat k) (length l).
Proof. intros Hk. rewrite slice_from_start by assumption. apply length_take. Qed.

Section SearchOrder.
Context `{Unicode} `{FloatOps}.

Lemma row_hit_of_shared (q_terms : list str) (r : chunk_row) :
  shares_term q_terms r -> is_Some (row_hit (list_to_set q_terms) r).
Proof.
  unfold shares_term. intros Hs. apply Exists_exists in Hs. destruct Hs as (t & Hq & Hc).
  unfold row_hit.
  destruct (chunk_norm r) as [|c0 cn] eqn:En.
  { simpl in Hc. now apply not_elem_of_nil in Hc. }
  cbn [is_empty].
  destruct (split (c0 :: cn)) as [|t0 ts] eqn:Es.
  { now apply not_elem_of_nil in Hc. }
  cbn [is_empty].
  destruct (Nat.leb_spec
              (size ((list_to_set q_terms : gset str) ∩ list_to_set (t0 :: ts))) 0)
    as [Hz|Hpos]; [|eauto].
  exfalso. assert (Hsz : size ((list_to_set q_terms : gset str) ∩ list_to_set (t0 :: ts)) = 0%nat)
    by lia.
  apply size_empty_inv in Hsz.
  assert (Ht : t ∈ (list_to_set q_terms : gset str) ∩ list_to_set (t0 :: ts)).
  { apply elem_of_intersection. split; now apply elem_of_list_to_set. }
  rewrite Hsz in Ht. now apply not_elem_of_empty in Ht.
Qed.

Lemma hits_count (q_terms : list str) (rows : list chunk_row) :
  length (omap (row_hit (list_to_set q_terms)) rows)
    = length (filter (shares_term q_terms) rows).
Proof.
  induction rows as [|r rows IH]; [reflexivity|].
  change (r :: rows) with ([r] ++ rows). rewrite omap_app, filter_app, !length_app, IH.
  f_equal. rewrite filter_cons, filter_nil. simpl.
  destruct (decide (shares_term q_terms r)) as [Hs|Hs].
  - destruct (row_hit_of_shared q_terms r Hs) as [h ->]. reflexivity.
  - now rewrite (row_hit_None q_terms r Hs).
Qed.

Lemma search_rows_length (rows : list chunk_row) (query : str) (k : Z) :
  (0 <= k)%Z ->
  length (search_rows rows query k)
    = Nat.min (Z.to_nat k) (length (filter (shares_term (tokenize query)) rows)).
Proof.
  intros Hk. unfold search_rows.
  destruct (tokenize query) as [|t ts] eqn:Eq; cbn [is_empty].
  - rewrite (filter_none (shares_term [])); [simpl; lia|].
    apply Forall_forall. intros r _ Hs. inversion Hs.
  - rewrite slice_length_from_start by assumption.
    rewrite (Permutation_length (sort_hits_perm _)). now rewrite hits_count.
Qed.

(** X14. For k >= 0, search returns min(k, m) hits, where m is the number
    of stored chunk rows that share a term with the query: never more than
    k, and every overlapping chunk when there are at most k of them. *)
Theorem search_returns_min_k_overlapping (d : db) (query : str) (k : Z) :
  (0 <= k)%Z ->
  length (search d query k)
    = Nat.min (Z.to_nat k) (length (filter (shares_term (tokenize query)) (chunks d))).
Proof. intros Hk. unfold search. now apply search_rows_length. Qed.

Lemma insert_hit_hd (a h : Hit) (l : list Hit) :
  fltb (hit_score a) (hit_score h) = false ->
  HdRel (fun x y => fltb (hit_score x) (hit_score y) = false) a l ->
  HdRel (fun x y => fltb (hit_score x) (hit_score y) = false) a (insert_hit h l).
Proof.
  intros Hah Hal. destruct l as [|x r]; simpl; [now constructor|].
  destruct (fltb (hit_score h) (hit_score x)); constructor;
    [now inversion Hal | assumption].
Qed.

Lemma sort_hits_sorted (l : list Hit) :
  (forall a b : float, fltb a b = true -> fltb b a = false) ->
  Sorted (fun x y => fltb (hit_score x) (hit_score y) = false) (sort_hits l).
Proof.
  intros Hasym. induction l as [|h l IH]; simpl; [constructor|].
  induction IH as [|x r Hr IHr Hhd]; simpl.
  - repeat constructor.
  - destruct (fltb (hit_score h) (hit_score x)) eqn:E.
    + constructor; [exact IHr|]. apply insert_hit_hd; [now apply Hasym | exact Hhd].
    + constructor; [now constructor | now constructor].
Qed.

(** X15. When the float comparison < is asymmetric (as it is on Python
    floats), the hits come in non-increasing score order: no hit is followed
    directly by one with a strictly greater score. *)
Theorem search_scores_descend (d : db) (query : str) (k : Z) :
  (forall a b : float, fltb a b = true -> fltb b a = false) ->
  Sorted (fun x y => fltb (hit_score x) (hit_score y) = false) (search d query k).
Proof.
  intros Hasym. unfold search, search_rows.
  destruct (is_empty (tokenize query)); [constructor|].
  unfold slice. apply Sorted_take, Sorted_drop. now apply sort_hits_sorted.
Qed.

End SearchOrder.

Lemma exact_floats_asymmetric (a b : sqrt_ratio) :
  @fltb exact_floats a b = true -> @fltb exact_floats b a = false.
Proof. simpl. rewrite Nat.ltb_lt, Nat.ltb_ge. lia. Qed.

Lemma search_returns_min_k_overlapping_witness :
  length (search (H := latin_unicode) (H0 := exact_floats) indexed_site (lit "fee index") 5)
    = 2%nat.
Proof.
  rewrite (search_returns_min_k_overlapping (H := latin_unicode) (H0 := exact_floats)
             indexed_site (lit "fee index") 5 ltac:(lia)).
  vm_compute. reflexivity.
Defined.

Lemma search_scores_descend_witness :
  Sorted (fun x y => @fltb exact_floats (hit_score x) (hit_score y) = false)
    (search (H := latin_unicode) (H0 := exact_floats) indexed_site (lit "fee index") 5).
Proof.
  apply (search_scores_descend (H := latin_unicode) (H0 := exact_floats)).
  exact exact_floats_asymmetric.
Defined.

(** ** [build_context] *)

(** [str(n)] for a natural number: its decimal digits. *)
Fixpoint uint_chars (u : Decimal.uint) : str :=
  match u with
  | Decimal.Nil => []
  | Decimal.D0 u => 0x30%N :: uint_chars u
  | Decimal.D1 u => 0x31%N :: uint_chars u
  | Decimal.D2 u => 0x32%N :: uint_chars u
  | Decimal.D3 u => 0x33%N :: uint_chars u
  | Decimal.D4 u => 0x34%N :: uint_chars u
  | Decimal.D5 u => 0x35%N :: uint_chars u
  | Decimal.D6 u => 0x36%N :: uint_chars u
  | Decimal.D7 u => 0x37%N :: uint_chars u
  | Decimal.D8 u => 0x38%N :: uint_chars u
  | Decimal.D9 u => 0x39%N :: uint_chars u
  end.

Definition str_of_nat (n : nat) : str := uint_chars (Nat.to_uint n).

Definition CONTEXT_HEADER : str := lit "EMU MEVZUAT EXCERPTS:".

Section BuildContext.
Context `{Unicode} `{FloatOps}.

(** [f"\n[{i}] {h.url}\n{h.chunk}\n"] *)
Definition context_part (i : nat) (h : Hit) : str :=
  [LF] ++ lit "[" ++ str_of_nat i ++ lit "] " ++ hit_url h ++ [LF] ++ hit_chunk h ++ [LF].

Definition build_context (d : db) (query : str) (k : Z) : str :=
  let hits := search d query k in
  if is_empty hits then []
  else
    let parts := CONTEXT_HEADER :: imap (fun i h => context_part (S i) h) hits in
    join [LF] parts.

Lemma join_header (parts : list str) :
  exists rest, join [LF] (CONTEXT_HEADER :: parts) = CONTEXT_HEADER ++ rest.
Proof.
  destruct parts as [|p ps].
  - exists []. rewrite app_nil_r. reflexivity.
  - exists ([LF] ++ join [LF] (p :: ps)). reflexivity.
Qed.

Lemma build_context_empty_iff (d : db) (query : str) (k : Z) :
  build_context d query k = [] <-> search d query k = [].
Proof.
  unfold build_context. destruct (search d query k) as [|h hs] eqn:E; cbn [is_empty].
  - tauto.
  - split; [|discriminate]. intros Hj.
    destruct (join_header (imap (fun i h0 => context_part (S i) h0) (h :: hs))) as [rest Hr].
    rewrite Hr in Hj. discriminate.
Qed.

(** X16. For k >= 1, build_context returns the empty string exactly when no
    stored chunk row shares a term with the query (in particular for a query
    without tokens); otherwise its result starts with the header line
    "EMU MEVZUAT EXCERPTS:". *)
Theorem build_context_empty_iff_no_overlap (d : db) (query : str) (k : Z) :
  (1 <= k)%Z ->
  (build_context d query k = [] <->
   Forall (fun r => ~ shares_term (tokenize query) r) (chunks d)) /\
  (build_context d query k ≠ [] ->
   exists rest, build_context d query k = CONTEXT_HEADER ++ rest).
Proof.
  intros Hk. split.
  - rewrite build_context_empty_iff.
    pose proof (search_rows_length (chunks d) query k ltac:(lia)) as Hlen.
    fold (search d query k) in Hlen. split.
    + intros Hs. rewrite Hs in Hlen. simpl in Hlen.
      apply Forall_forall. intros r Hr Hsh.
      assert (Hin : r ∈ filter (shares_term (tokenize query)) (chunks d))
        by (apply list_elem_of_filter; now split).
      destruct (filter (shares_term (tokenize query)) (chunks d));
        [now apply not_elem_of_nil in Hin | simpl in Hlen; lia].
    + intros Hall. rewrite (filter_none _ _ Hall) in Hlen. simpl in Hlen.
      destruct (search d query k); [reflexivity | simpl in Hlen; lia].
  - unfold build_context. destruct (search d query k) as [|h hs]; cbn [is_empty].
    + congruence.
    + intros _. apply join_header.
Qed.

End BuildContext.

Lemma build_context_empty_iff_no_overlap_witness :
  build_context (H := latin_unicode) (H0 := exact_floats) indexed_site
    (lit "library hours") 6 = [].
Proof.
  apply (proj1 (build_context_empty_iff_no_overlap (H := latin_unicode)
                  (H0 := exact_floats) indexed_site (lit "library hours") 6 ltac:(lia))).
  apply (bool_decide_unpack _). vm_compute. exact I.
Defined.

Example build_context_registration_fee :
  build_context (H := latin_unicode) (H0 := exact_floats) indexed_site
    (lit "registration fee") 1
  = lit "EMU MEVZUAT EXCERPTS:" ++ [LF; LF] ++ lit "[1] https://mevzuat.emu.edu.tr/a.htm"
    ++ [LF] ++ lit "fee schedule for registration" ++ [LF].
Proof. vm_compute. reflexivity. Qed.

(** ** The normalized column of the rows the indexer builds *)

Lemma is_run_infix (p : N -> bool) (pre w post : list str) :
  Forall (is_run p) (pre ++ w ++ post) -> Forall (is_run p) w.
Proof.
  intros Hall. apply Forall_app in Hall. destruct Hall as [_ Hall].
  apply Forall_app in Hall. tauto.
Qed.

Section NormalizedColumn.
Context `{Unicode}.

(** X17. In every row that the indexer builds for a page, chunk_norm is
    equal to chunk whenever lower-casing leaves the chunk unchanged (the
    chunk is made of tokens of the lower-cased page text): re-normalizing a
    chunk gives the chunk itself. *)
Theorem chunk_norm_repeats_chunk (url title text : str) :
  Forall (fun '(_, _, c, c_norm) => lower c = c -> c_norm = c)
         (chunk_rows url title text).
Proof.
  unfold chunk_rows. apply Forall_map.
  destruct (chunk_while_chunks _ _ _ _ _ _
              (chunk_tokens_while (tokenize text) DEFAULT_CHUNK_SIZE DEFAULT_OVERLAP)
              (chunk_step_pos DEFAULT_CHUNK_SIZE DEFAULT_OVERLAP) ltac:(lia))
    as (added & Heq & _ & Hall).
  simpl in Heq. rewrite Heq.
  eapply Forall_impl; [exact Hall|].
  intros c (wd & -> & _ & (pre & post & Hinfix) & _). simpl. intros Hlow.
  f_equal. unfold tokenize, normalize_text, token_re_findall.
  rewrite (runs_strip _ space_not_token).
  rewrite (runs_sub_ws _ space_not_token) by discriminate.
  rewrite (runs_replace_nbsp _ space_not_token), Hlow.
  apply runs_join; [reflexivity|].
  apply (is_run_infix _ pre wd post). rewrite <- Hinfix. apply tokenize_tokens.
Qed.

End NormalizedColumn.

(** ** [_find_first_url] in app_qt.py *)

Definition startswith (s pre : str) : bool := bool_decide (take (length pre) s = pre).

(** The longest prefix without whitespace: what [[^\s]*] consumes. *)
Fixpoint nonspace_prefix (s : str) : str :=
  match s with
  | [] => []
  | c :: r => if isspace c then [] else c :: nonspace_prefix r
  end.

(** The match of [https?://[^\s]+] starting at the first character of [s],
    if there is one. *)
Definition url_match_here (s : str) : option str :=
  let with_scheme (pre : str) :=
    let body := nonspace_prefix (drop (length pre) s) in
    if is_empty body then None else Some (pre ++ body) in
  if startswith s (lit "https://") then with_scheme (lit "https://")
  else if startswith s (lit "http://") then with_scheme (lit "http://")
  else None.

(** [re.search(r"https?://[^\s]+", s)]: the leftmost match. *)
Fixpoint url_search (s : str) : option str :=
  match s with
  | [] => None
  | _ :: r =>
      match url_match_here s with
      | Some m => Some m
      | None => url_search r
      end
  end.

Fixpoint lstrip_chars (chars : str) (s : str) : str :=
  match s with
  | [] => []
  | c :: r => if bool_decide (c ∈ chars) then lstrip_chars chars r else s
  end.

(** [s.rstrip(chars)] *)
Definition rstrip_chars (chars : str) (s : str) : str := rev (lstrip_chars chars (rev s)).

(** The characters given to [rstrip]: closing round, square and curly
    bracket, full stop, comma, greater-than sign, double and single quote. *)
Definition URL_TRAILING : str := lit ").,]}>" ++ [0x22; 0x27]%N.

Definition find_first_url (text : str) : option str :=
  if is_empty text then None
  else
    match url_search text with
    | Some m => Some (rstrip_chars URL_TRAILING m)
    | None => None
    end.

Lemma nonspace_prefix_spec (s : str) :
  Forall (fun c => isspace c = false) (nonspace_prefix s) /\
  exists rest, s = nonspace_prefix s ++ rest.
Proof.
  induction s as [|c r (Hall & rest & Hrest)]; simpl.
  - split; [constructor | now exists []].
  - destruct (isspace c) eqn:Hc.
    + split; [constructor | now exists (c :: r)].
    + split; [now constructor|]. exists rest. simpl. now rewrite <- Hrest.
Qed.

(** A match: one of the two schemes followed by a non-empty run of
    non-whitespace characters. *)
Definition url_shaped (m : str) : Prop :=
  exists pre body,
    (pre = lit "http://" \/ pre = lit "https://") /\
    m = pre ++ body /\ body ≠ [] /\ Forall (fun c => isspace c = false) body.

Lemma url_match_here_spec (s m : str) :
  url_match_here s = Some m -> url_shaped m /\ exists rest, s = m ++ rest.
Proof.
  unfold url_match_here.
  assert (Hscheme : forall pre,
             startswith s pre = true ->
             (if is_empty (nonspace_prefix (drop (length pre) s)) then None
              else Some (pre ++ nonspace_prefix (drop (length pre) s))) = Some m ->
             (exists body, m = pre ++ body /\ body ≠ [] /\
                           Forall (fun c => isspace c = false) body) /\
             exists rest, s = m ++ rest).
  { intros pre Hpre Hm. unfold startswith in Hpre. apply bool_decide_eq_true in Hpre.
    destruct (nonspace_prefix_spec (drop (length pre) s)) as (Hall & rest & Hrest).
    destruct (nonspace_prefix (drop (length pre) s)) as [|c body] eqn:E; [discriminate|].
    injection Hm as <-. split.
    - exists (c :: body). split; [reflexivity|]. split; [discriminate | exact Hall].
    - exists rest. rewrite <- app_assoc, <- Hrest.
      transitivity (take (length pre) s ++ drop (length pre) s);
        [symmetry; apply take_drop | now rewrite Hpre]. }
  destruct (startswith s (lit "https://")) eqn:Hs.
  - intros Hm. destruct (Hscheme _ Hs Hm) as ((body & Hb) & Hrest).
    split; [|exact Hrest]. exists (lit "https://"), body. tauto.
  - destruct (startswith s (lit "http://")) eqn:Hh; [|discriminate].
    intros Hm. destruct (Hscheme _ Hh Hm) as ((body & Hb) & Hrest).
    split; [|exact Hrest]. exists (lit "http://"), body. tauto.
Qed.

Lemma url_search_spec (s m : str) :
  url_search s = Some m -> url_shaped m /\ exists before rest, s = before ++ m ++ rest.
Proof.
  induction s as [|c r IH]; simpl; [discriminate|].
  destruct (url_match_here (c :: r)) as [m'|] eqn:E.
  - intros [= <-]. apply url_match_here_spec in E. destruct E as (Hshape & rest & Hrest).
    split; [exact Hshape|]. now exists [], rest.
  - intros Hm. destruct (IH Hm) as (Hshape & before & rest & ->).
    split; [exact Hshape|]. now exists (c :: before), rest.
Qed.

Lemma lstrip_chars_spec (chars s : str) :
  (exists dropped, s = dropped ++ lstrip_chars chars s) /\
  (forall c r, lstrip_chars chars s = c :: r -> c ∉ chars).
Proof.
  induction s as [|x s ((dropped & Hd) & Hhd)]; simpl.
  - split; [now exists [] | discriminate].
  - destruct (bool_decide (x ∈ chars)) eqn:Hx.
    + split; [exists (x :: dropped); simpl; now rewrite <- Hd | exact Hhd].
    + split; [now exists []|]. intros c r [= <- _].
      now apply bool_decide_eq_false in Hx.
Qed.

Lemma lstrip_chars_app (chars a b : str) :
  Exists (fun c => c ∉ chars) a ->
  lstrip_chars chars (a ++ b) = lstrip_chars chars a ++ b.
Proof.
  induction a as [|x a IH]; intros Hex; [inversion Hex|]. simpl.
  destruct (bool_decide (x ∈ chars)) eqn:Hx; [|reflexivity].
  apply bool_decide_eq_true in Hx. apply IH.
  inversion Hex; subst; [contradiction | assumption].
Qed.

Lemma lstrip_chars_all (chars a b : str) :
  Forall (fun c => c ∈ chars) a -> lstrip_chars chars (a ++ b) = lstrip_chars chars b.
Proof.
  induction 1 as [|x a Hx _ IH]; [reflexivity|]. simpl.
  now rewrite (bool_decide_eq_true_2 _ Hx).
Qed.

(** Stripping trailing characters never reaches into a prefix that ends in
    a character outside the set. *)
Lemma rstrip_chars_keeps_prefix (chars pre body : str) (c : N) :
  c ∉ chars ->
  exists body', rstrip_chars chars ((pre ++ [c]) ++ body) = (pre ++ [c]) ++ body' /\
                exists dropped, body = body' ++ dropped.
Proof.
  intros Hc. unfold rstrip_chars. rewrite rev_app_distr.
  destruct (decide (Forall (fun x => x ∈ chars) (rev body))) as [Hall|Hsome].
  - rewrite lstrip_chars_all by assumption.
    exists []. split; [|now exists body].
    rewrite rev_app_distr. simpl.
    rewrite (bool_decide_eq_false_2 _ Hc).
    change (c :: rev pre) with ([c] ++ rev pre).
    rewrite rev_app_distr, rev_involutive. simpl. now rewrite app_nil_r.
  - apply not_Forall_Exists in Hsome; [|intros x; apply _].
    rewrite lstrip_chars_app by assumption.
    destruct (lstrip_chars_spec chars (rev body)) as ((dropped & Hd) & _).
    exists (rev (lstrip_chars chars (rev body))). split.
    + rewrite rev_app_distr, rev_involutive. reflexivity.
    + exists (rev dropped). rewrite <- rev_app_distr, <- Hd. now rewrite rev_involutive.
Qed.

Lemma rstrip_chars_last (chars s r : str) (c : N) :
  rstrip_chars chars s = r ++ [c] -> c ∉ chars.
Proof.
  unfold rstrip_chars. intros Hs. apply (f_equal (@rev N)) in Hs.
  rewrite rev_involutive, rev_app_distr in Hs. simpl in Hs.
  destruct (lstrip_chars_spec chars (rev s)) as (_ & Hhd). eapply Hhd. exact Hs.
Qed.

(** X18. A URL returned by _find_first_url starts with http:// or https://,
    holds no whitespace, does not end in a closing bracket, full stop,
    comma, greater-than sign or quote character, and
    is a part of the text (the match with trailing characters of that set
    removed); for an empty text the result is None. *)
Theorem find_first_url_shape (text url : str) :
  find_first_url text = Some url ->
  (exists pre body, (pre = lit "http://" \/ pre = lit "https://") /\ url = pre ++ body) /\
  Forall (fun c => isspace c = false) url /\
  (forall r c, url = r ++ [c] -> c ∉ URL_TRAILING) /\
  (exists before rest, text = before ++ url ++ rest) /\
  text ≠ [].
Proof.
  unfold find_first_url. destruct text as [|t0 text']; [discriminate|]. cbn [is_empty].
  destruct (url_search (t0 :: text')) as [m|] eqn:E; [|discriminate].
  intros [= <-]. apply url_search_spec in E.
  destruct E as ((pre & body & Hpre & -> & _ & Hbody) & before & rest & Htext).
  assert (Hsplit : exists pre' c, pre = pre' ++ [c] /\ (c ∉ URL_TRAILING) /\
                                 Forall (fun x => isspace x = false) pre).
  { destruct Hpre as [->| ->].
    - exists (lit "http:/"), 0x2f%N. split; [reflexivity|].
      split; [apply (bool_decide_unpack _); vm_compute; exact I|].
      apply (bool_decide_unpack _). vm_compute. exact I.
    - exists (lit "https:/"), 0x2f%N. split; [reflexivity|].
      split; [apply (bool_decide_unpack _); vm_compute; exact I|].
      apply (bool_decide_unpack _). vm_compute. exact I. }
  destruct Hsplit as (pre' & c & Hpre' & Hc & Hprens).
  destruct (rstrip_chars_keeps_prefix URL_TRAILING pre' body c Hc)
    as (body' & Hstrip & dropped & Hdropped).
  rewrite <- Hpre' in Hstrip. rewrite Hstrip.
  split; [exists pre, body'; split; [exact Hpre | reflexivity]|].
  split.
  { apply Forall_app. split; [exact Hprens|].
    rewrite Hdropped in Hbody. apply Forall_app in Hbody. tauto. }
  split.
  { intros r c' Hr. rewrite <- Hstrip in Hr. eapply rstrip_chars_last. exact Hr. }
  split; [|discriminate].
  exists before, (dropped ++ rest). rewrite Htext, Hdropped.
  now rewrite <- !app_assoc.
Qed.

Lemma find_first_url_shape_witness :
  find_first_url (lit "see (https://a.example/b.pdf), ok") = Some (lit "https://a.example/b.pdf") /\
  Forall (fun c => isspace c = false) (lit "https://a.example/b.pdf").
Proof.
  split; [reflexivity|].
  exact (proj1 (proj2 (find_first_url_shape (lit "see (https://a.example/b.pdf), ok")
                         (lit "https://a.example/b.pdf") eq_refl))).
Defined.

(** ** [ensure_index]: the freshness cache *)

Section FreshnessCache.
Context `{Unicode} `{UrlLib} `{HtmlParser}.
Variable self : MevzuatKB.
Variable w : world.

Lemma loop_run_skips_fresh (R : Z) l d res d' evs (u : str) :
  loop_run w R l d res d' evs ->
  fresh_at (now w) R d u = true ->
  u ∉ fetched_urls evs.
Proof.
  induction 1 as [d|v rest d d1 evs1 res d2 evs2 Hpass _ IH|v rest d e d1 evs1 Hpass];
    intros Hfresh.
  - apply not_elem_of_nil.
  - assert (Hnot1 : u ∉ fetched_urls evs1).
    { intros Hin. pose proof (url_pass_fetched w R v _ _ _ _ u Hpass Hin) as ->.
      inversion Hpass; subst; try congruence. now apply not_elem_of_nil in Hin. }
    assert (Hfresh1 : fresh_at (now w) R d1 u = true).
    { assert (Hnw : u ∉ written_urls evs1).
      { intros Hin. apply Hnot1.
        now destruct (url_pass_written w R v _ _ _ _ u Hpass Hin) as (-> & _ & Hf). }
      pose proof (url_pass_frame w R v d d1 evs1 u Hpass Hnw) as [Hdocs _].
      now rewrite (fresh_at_docs _ _ d d1 u Hdocs). }
    rewrite fetched_urls_app. intros Hin. apply elem_of_app in Hin.
    destruct Hin as [Hin|Hin]; [now apply Hnot1 | now apply (IH Hfresh1)].
  - intros Hin. pose proof (url_pass_fetched w R v _ _ _ _ u Hpass Hin) as ->.
    inversion Hpass; subst. congruence.
Qed.

(** X19. A URL whose stored Document is within the refresh window when the
    run starts (now - fetched_at < refresh_days*86400) is not fetched in
    that run, however often it occurs among the candidates, and its
    Document and chunk rows are the same after the run. *)
Theorem fresh_url_is_not_fetched (d : db) (refresh_days max_pages : Z) (u : str) :
  fresh_at (now w) (refresh_days * 24 * 3600) d u = true ->
  let o := ensure_index self w d refresh_days max_pages in
  (u ∉ fetched_urls (outcome_trace o)) /\ unchanged_at u d (outcome_db o).
Proof.
  intros Hfresh o. subst o.
  pose proof (ensure_index_run self w d refresh_days max_pages) as Hrun.
  destruct (seed_response w) as [html|].
  - destruct Hrun as (res & d' & evs & Hloop & ->).
    pose proof (loop_run_skips_fresh _ _ _ _ _ _ u Hloop Hfresh) as Hnot.
    split; [destruct res; exact Hnot|].
    destruct res as [e|[]]; simpl; [apply unchanged_at_refl|].
    eapply loop_run_frame; [exact Hloop|]. intros Hin. apply Hnot.
    now destruct (loop_run_written w _ _ _ _ _ _ u Hloop Hin) as (_ & _ & Hf).
  - rewrite Hrun. simpl. split; [apply not_elem_of_nil | apply unchanged_at_refl].
Qed.

End FreshnessCache.

Lemma fresh_url_is_not_fetched_witness :
  let store_with_a :=
    {| docs := {[ url_a := {| doc_title := lit "a.htm"; doc_fetched_at := 900;
                              doc_content := lit "old text" |} ]};
       chunks := []; chunk_seq := 0 |} in
  let o := run (site 1000) store_with_a 14 600 in
  (url_a ∉ fetched_urls (outcome_trace o)) /\ unchanged_at url_a store_with_a (outcome_db o).
Proof.
  intros store_with_a.
  apply (fresh_url_is_not_fetched (H := latin_unicode) (H0 := plain_urllib)
           (H1 := href_list_parser) MevzuatKB_init (site 1000) store_with_a 14 600 url_a).
  vm_compute. reflexivity.
Defined.
